(** * Tier list: drag-and-drop state machine and drag-enter counter

    A shallow embedding of the logic of the tier list page
    ([Droppable] and the handlers of [Home]) and the properties of its
    specification.

    Conventions of the embedding.

    - An [Item] object is never modified after the seed state has built it,
      so the objects live in a fixed heap and a variable of TypeScript type
      [Item] is a reference into that heap.  JavaScript's identity of
      objects (the equality of [Set]) is equality of references; equality
      of labels is decided on the [label] field read through the heap.
    - A JavaScript [Set] of items is the list of its elements in insertion
      order, without repetition.  [Array.from] of a set is that list.
    - The sets of a tier are only ever rebuilt, so a tier carries the
      elements of its set.  The candidate set is modified in place by
      [removeItemFromCandidatelist]; it is an object with an address.
    - A React handler runs in the closure of one render: the variables of
      the closure keep the values of that render, each [setX] records the
      next value of its state variable (the last call wins), and the
      component is rendered again before the next event is handled.
    - The counter of [Droppable] is a JavaScript number that starts at 0
      and changes by 1 or is set to 0; it is an integer of [Z]. *)

From Stdlib Require Import String.
From Stdlib Require Import List Bool Arith ZArith Lia Permutation.
Import ListNotations.

(** ** JavaScript sets of references *)

Module JSSet.

Definition t := list nat.

Definition has (s : t) (x : nat) : bool := existsb (Nat.eqb x) s.

(** [Set.prototype.add]: an element already present keeps its place. *)
Definition add (s : t) (x : nat) : t := if has s x then s else s ++ [x].

(** [Set.prototype.delete]. *)
Definition delete (s : t) (x : nat) : t :=
  filter (fun y => negb (Nat.eqb x y)) s.

(** [new Set(iterable)]: the elements are added one after the other. *)
Definition from (l : list nat) : t := fold_left add l [].

Definition size (s : t) : nat := length s.

End JSSet.

(** ** Data model *)

Module Item.
(** The fields of an [Item] object. *)
Record t := mk { label : option string; imgSrc : option string }.
End Item.

(** A value of TypeScript type [Item]: a reference to an object. *)
Definition ItemRef := nat.

Module Tier.
Record t := mk {
  label : string;
  order : option Z;
  color : option string;
  colorClass : option string;
  items : JSSet.t
}.

(** [{...tier, items: s}] *)
Definition with_items (tier : t) (s : JSSet.t) : t :=
  mk (label tier) (order tier) (color tier) (colorClass tier) s.
End Tier.

(** The candidate [Set] object: its identity and its elements. *)
Record SetObj := { addr : nat; elems : JSSet.t }.

(** The state of [Home], together with the number of
    [.disposable-drag-image] elements in the body of the document. *)
Record State := {
  tierlist : list Tier.t;
  candidatelist : SetObj;
  draggedCandidateItem : option ItemRef;
  draggedTierItem : option ItemRef;
  dragImages : nat
}.

(** [a === b] on [string | undefined]. *)
Definition label_eqb (a b : option string) : bool :=
  match a, b with
  | Some x, Some y => String.eqb x y
  | None, None => true
  | _, _ => false
  end.

(** What a handler has done so far. *)
Record Handler := {
  pool : JSSet.t;
    (* the elements of the Set object that [candidatelist] is bound to *)
  nextTierlist : list Tier.t;
  nextCandidatelist : option SetObj;
    (* [None]: the state holds the Set object of the closure *)
  nextDraggedCandidateItem : option ItemRef;
  nextDraggedTierItem : option ItemRef;
  document : nat
}.

Definition start (s : State) : Handler :=
  {| pool := elems (candidatelist s);
     nextTierlist := tierlist s;
     nextCandidatelist := None;
     nextDraggedCandidateItem := draggedCandidateItem s;
     nextDraggedTierItem := draggedTierItem s;
     document := dragImages s |}.

Definition commit (s : State) (h : Handler) : State :=
  {| tierlist := nextTierlist h;
     candidatelist :=
       match nextCandidatelist h with
       | Some o => o
       | None => {| addr := addr (candidatelist s); elems := pool h |}
       end;
     draggedCandidateItem := nextDraggedCandidateItem h;
     draggedTierItem := nextDraggedTierItem h;
     dragImages := document h |}.

Definition Action := Handler -> Handler.

Definition skip : Action := fun h => h.
Definition seq (f g : Action) : Action := fun h => g (f h).
Notation "f ;; g" := (seq f g) (at level 61, right associativity).

Definition setTierlist (v : list Tier.t) : Action := fun h =>
  {| pool := pool h; nextTierlist := v;
     nextCandidatelist := nextCandidatelist h;
     nextDraggedCandidateItem := nextDraggedCandidateItem h;
     nextDraggedTierItem := nextDraggedTierItem h;
     document := document h |}.

(** [setCandidatelist(candidatelist)]: the object of the closure. *)
Definition setCandidatelist_same : Action := fun h =>
  {| pool := pool h; nextTierlist := nextTierlist h;
     nextCandidatelist := None;
     nextDraggedCandidateItem := nextDraggedCandidateItem h;
     nextDraggedTierItem := nextDraggedTierItem h;
     document := document h |}.

(** [setCandidatelist(new Set(...))]: a new object. *)
Definition setCandidatelist_new (o : SetObj) : Action := fun h =>
  {| pool := pool h; nextTierlist := nextTierlist h;
     nextCandidatelist := Some o;
     nextDraggedCandidateItem := nextDraggedCandidateItem h;
     nextDraggedTierItem := nextDraggedTierItem h;
     document := document h |}.

(** [candidatelist.delete(item)]: the Set object itself changes. *)
Definition candidatelist_delete (item : ItemRef) : Action := fun h =>
  {| pool := JSSet.delete (pool h) item; nextTierlist := nextTierlist h;
     nextCandidatelist := nextCandidatelist h;
     nextDraggedCandidateItem := nextDraggedCandidateItem h;
     nextDraggedTierItem := nextDraggedTierItem h;
     document := document h |}.

Definition setDraggedCandidateItem (v : option ItemRef) : Action := fun h =>
  {| pool := pool h; nextTierlist := nextTierlist h;
     nextCandidatelist := nextCandidatelist h;
     nextDraggedCandidateItem := v;
     nextDraggedTierItem := nextDraggedTierItem h;
     document := document h |}.

Definition setDraggedTierItem (v : option ItemRef) : Action := fun h =>
  {| pool := pool h; nextTierlist := nextTierlist h;
     nextCandidatelist := nextCandidatelist h;
     nextDraggedCandidateItem := nextDraggedCandidateItem h;
     nextDraggedTierItem := v;
     document := document h |}.

(** [document.body.append(dragImage)] *)
Definition createDisposableDragImage : Action := fun h =>
  {| pool := pool h; nextTierlist := nextTierlist h;
     nextCandidatelist := nextCandidatelist h;
     nextDraggedCandidateItem := nextDraggedCandidateItem h;
     nextDraggedTierItem := nextDraggedTierItem h;
     document := S (document h) |}.

(** [document.body.querySelector(".disposable-drag-image")?.remove()] *)
Definition disposeDragImage : Action := fun h =>
  {| pool := pool h; nextTierlist := nextTierlist h;
     nextCandidatelist := nextCandidatelist h;
     nextDraggedCandidateItem := nextDraggedCandidateItem h;
     nextDraggedTierItem := nextDraggedTierItem h;
     document := Nat.pred (document h) |}.

(** ** The handlers of [Home] *)

Section Home.

(** The objects of type [Item]. *)
Variable heap : ItemRef -> Item.t.

Definition label (i : ItemRef) : option string := Item.label (heap i).

(** The closure of the render in which the handlers were built. *)
Variable c : State.

Definition dragCandidateItem (item : ItemRef) : Action :=
  setDraggedCandidateItem (Some item).

Definition undragCandidateItem : Action := setDraggedCandidateItem None.

Definition dragTierItem (item : ItemRef) : Action :=
  setDraggedTierItem (Some item).

Definition undragTierItem : Action := setDraggedTierItem None.

Definition removeItemFromCandidatelist (item : ItemRef) : Action :=
  candidatelist_delete item ;; setCandidatelist_same.

Definition removeItemFromTier (tierOrigin : Tier.t) (item : ItemRef)
  : Tier.t :=
  let newItems :=
    JSSet.from
      (filter (fun i => negb (label_eqb (label i) (label item)))
              (Tier.items tierOrigin)) in
  Tier.with_items tierOrigin newItems.

Definition addItemToTier (tier : Tier.t) (item : ItemRef) : Tier.t :=
  Tier.with_items tier (JSSet.from (Tier.items tier ++ [item])).

Definition moveCandidateItemToTier (tier : Tier.t) (item : ItemRef)
  : Action :=
  setTierlist
    (map (fun t => if String.eqb (Tier.label t) (Tier.label tier)
                   then addItemToTier t item else t)
         (tierlist c)) ;;
  removeItemFromCandidatelist item ;;
  setDraggedCandidateItem None ;;
  disposeDragImage.

(** [tierlist.find((t) => Array.from(t.items).find((i) => i.label === item.label))];
    the inner [find] returns an object, which is truthy, or [undefined]. *)
Definition findOriginTier (item : ItemRef) : option Tier.t :=
  find (fun t =>
          match find (fun i => label_eqb (label i) (label item))
                     (Tier.items t) with
          | Some _ => true
          | None => false
          end)
       (tierlist c).

Definition moveTierItemToAnotherTier (targetTier : Tier.t) (item : ItemRef)
  : Action :=
  match findOriginTier item with
  | None => skip
  | Some originTier =>
      let newTierlist :=
        map (fun t => if String.eqb (Tier.label t) (Tier.label targetTier)
                      then addItemToTier t item else t)
            (map (fun t => if String.eqb (Tier.label t) (Tier.label originTier)
                           then removeItemFromTier originTier item else t)
                 (tierlist c)) in
      setTierlist newTierlist ;;
      setDraggedTierItem None ;;
      disposeDragImage
  end.

Definition handleDropOnTierList (tier : Tier.t) : Action :=
  (match draggedCandidateItem c with
   | Some item => moveCandidateItemToTier tier item
   | None => skip
   end) ;;
  (match draggedTierItem c with
   | Some item => moveTierItemToAnotherTier tier item
   | None => skip
   end).

(** [new Set([...Array.from(candidatelist), item])] is a new object; the
    objects of the candidate list are numbered in the order of their
    creation. *)
Definition addItemToCandidate (item : ItemRef) : Action := fun h =>
  setCandidatelist_new
    {| addr := S (addr (candidatelist c));
       elems := JSSet.from (pool h ++ [item]) |} h.

Definition handleDropOnCandidateList : Action :=
  (match draggedCandidateItem c with
   | Some _ => skip (* do nothing *)
   | None => skip
   end) ;;
  (match draggedTierItem c with
   | Some item =>
       match findOriginTier item with
       | None => skip
       | Some originTier =>
           setTierlist
             (map (fun t =>
                     if String.eqb (Tier.label t) (Tier.label originTier)
                     then removeItemFromTier originTier item else t)
                  (tierlist c)) ;;
           addItemToCandidate item ;;
           setDraggedTierItem None ;;
           disposeDragImage
       end
   | None => skip
   end).

Definition resetList : Action := fun h =>
  let itemsInTierlist :=
    fold_left (fun result tier => result ++ Tier.items tier)
              (tierlist c) [] in
  let tierlistWithoutItems :=
    map (fun tier => Tier.with_items tier (JSSet.from [])) (tierlist c) in
  (setTierlist tierlistWithoutItems ;;
   setCandidatelist_new
     {| addr := S (addr (candidatelist c));
        elems := JSSet.from (pool h ++ itemsInTierlist) |}) h.

End Home.


(** ** Events of the page *)

(** [DraggableItem] wires [onDragStart] and [onDragEnd] of every item of the
    candidate list to [dragCandidateItem] and [undragCandidateItem], and of
    every item of a tier to [dragTierItem] and [undragTierItem];
    [DroppableTier] wires [onDrop] of a tier to [handleDropOnTierList],
    [CandidateList] wires it to [handleDropOnCandidateList], and the reset
    button calls [resetList]. *)
Inductive Event :=
| DragStartCandidate (item : ItemRef)
| DragEndCandidate
| DragStartTier (item : ItemRef)
| DragEndTier
| DropOnTier (tier : Tier.t)
| DropOnCandidateList
| ClickReset.

Definition handler (heap : ItemRef -> Item.t) (c : State) (e : Event)
  : Action :=
  match e with
  | DragStartCandidate item =>
      createDisposableDragImage ;; dragCandidateItem item
  | DragEndCandidate => disposeDragImage ;; undragCandidateItem
  | DragStartTier item => createDisposableDragImage ;; dragTierItem item
  | DragEndTier => disposeDragImage ;; undragTierItem
  | DropOnTier tier => handleDropOnTierList heap c tier
  | DropOnCandidateList => handleDropOnCandidateList heap c
  | ClickReset => resetList c
  end.

(** One event: the handler of the current render runs, then React renders
    the component again with the recorded values. *)
Definition step (heap : ItemRef -> Item.t) (s : State) (e : Event) : State :=
  commit s (handler heap s e (start s)).

(** The events the rendered page can deliver in state [s]: only rendered
    items can be dragged and only rendered tiers can be dropped on. *)
Definition enabled (s : State) (e : Event) : Prop :=
  match e with
  | DragStartCandidate item => In item (elems (candidatelist s))
  | DragStartTier item => exists t, In t (tierlist s) /\ In item (Tier.items t)
  | DropOnTier tier => In tier (tierlist s)
  | _ => True
  end.

Inductive reachable (heap : ItemRef -> Item.t) (s0 : State) : State -> Prop :=
| reachable_init : reachable heap s0 s0
| reachable_step s e :
    reachable heap s0 s -> enabled s e -> reachable heap s0 (step heap s e).

(** ** The seed state *)

Definition Vivo : ItemRef := 0.
Definition Item1 : ItemRef := 1.
Definition Item2 : ItemRef := 2.
Definition Item3 : ItemRef := 3.

Definition seed_heap (i : ItemRef) : Item.t :=
  match i with
  | 0 => Item.mk (Some "Vivo"%string)
           (Some "https://fdn2.gsmarena.com/vv/bigpic/vivo-y16.jpg"%string)
  | 1 => Item.mk (Some "Item 1"%string)
           (Some "https://fdn2.gsmarena.com/vv/bigpic/vivo-iqoo-z6-lite-5g.jpg"%string)
  | 2 => Item.mk (Some "Item 2"%string)
           (Some "https://fdn2.gsmarena.com/vv/bigpic/realme-c30s.jpg"%string)
  | 3 => Item.mk (Some "Item 3"%string)
           (Some "https://fdn2.gsmarena.com/vv/bigpic/oppo-k10x-.jpg"%string)
  | _ => Item.mk None None
  end.

Definition seed_tier (l c : string) (s : list ItemRef) : Tier.t :=
  Tier.mk l None None (Some c) (JSSet.from s).

Definition tier_S := seed_tier "S" "bg-indigo-500 text-white" [Vivo].
Definition tier_A := seed_tier "A" "bg-sky-500 text-white" [].
Definition tier_B := seed_tier "B" "bg-green-500 text-white" [].
Definition tier_C := seed_tier "C" "bg-lime-500 text-white" [].
Definition tier_D := seed_tier "D" "bg-yellow-500 text-white" [].
Definition tier_E := seed_tier "E" "bg-orange-500 text-white" [].
Definition tier_F := seed_tier "F" "bg-red-500 text-white" [].

Definition seed : State :=
  {| tierlist := [tier_S; tier_A; tier_B; tier_C; tier_D; tier_E; tier_F];
     candidatelist :=
       {| addr := 0; elems := JSSet.from [Item1; Item2; Item3] |};
     draggedCandidateItem := None;
     draggedTierItem := None;
     dragImages := 0 |}.

(** ** The drag-enter counter of [Droppable] *)

Module Droppable.

Inductive Callback := onDragLeave | onDragOver | onDrop.

Inductive DomEvent := DragEnter | DragLeave | DragOver | Drop.

(** What a handler of the widget does, in the order of the source. *)
Inductive Effect :=
| setDragEnterCounter (n : Z)
| call (cb : Callback).

(** The four handlers of the [div], in the closure of a render whose
    state variable is [dragEnterCounter]. *)
Definition handle (dragEnterCounter : Z) (e : DomEvent) : list Effect :=
  match e with
  | DragEnter => [setDragEnterCounter (dragEnterCounter + 1)]
  | DragLeave =>
      let nextDragEnterCounter := (dragEnterCounter - 1)%Z in
      setDragEnterCounter nextDragEnterCounter ::
      (if (nextDragEnterCounter <=? 0)%Z then [call onDragLeave] else [])
  | DragOver => [call onDragOver]
  | Drop => [setDragEnterCounter 0; call onDrop]
  end.

(** The value of the state variable in the next render: the last value
    given to [setDragEnterCounter]. *)
Definition next_counter (dragEnterCounter : Z) (effs : list Effect) : Z :=
  fold_left (fun n eff => match eff with
                          | setDragEnterCounter m => m
                          | call _ => n
                          end) effs dragEnterCounter.

(** The callbacks of the owner that were invoked, in order. *)
Definition calls (effs : list Effect) : list Callback :=
  flat_map (fun eff => match eff with
                       | setDragEnterCounter _ => []
                       | call cb => [cb]
                       end) effs.

(** A sequence of events, the component being rendered again between two
    events: the final counter and, event by event, the callbacks invoked. *)
Fixpoint run (dragEnterCounter : Z) (evs : list DomEvent)
  : Z * list (list Callback) :=
  match evs with
  | [] => (dragEnterCounter, [])
  | e :: evs' =>
      let effs := handle dragEnterCounter e in
      let r := run (next_counter dragEnterCounter effs) evs' in
      (fst r, calls effs :: snd r)
  end.

Definition counter_after (c : Z) (evs : list DomEvent) : Z := fst (run c evs).
Definition trace (c : Z) (evs : list DomEvent) : list (list Callback) :=
  snd (run c evs).

(** How often the owner's [onDragLeave] was invoked. *)
Definition leave_calls (tr : list (list Callback)) : nat :=
  length (filter (fun cb => match cb with onDragLeave => true | _ => false end)
                 (concat tr)).

Definition enter_or_leave (e : DomEvent) : Prop :=
  e = DragEnter \/ e = DragLeave.

(** Enter events minus leave events. *)
Definition net (evs : list DomEvent) : Z :=
  fold_right (fun e n => match e with
                         | DragEnter => n + 1
                         | DragLeave => n - 1
                         | _ => n
                         end)%Z 0%Z evs.

(** The counter in the render that handles the event number [k]. *)
Definition counter_before (c : Z) (evs : list DomEvent) (k : nat) : Z :=
  counter_after c (firstn k evs).

(** The callbacks invoked by the event number [k]. *)
Definition calls_at (c : Z) (evs : list DomEvent) (k : nat) : list Callback :=
  nth k (trace c evs) [].

(** The owner's [onDragLeave] is invoked only by a leave that takes the
    counter from above 0 to 0 or below. *)
Definition fires_only_on_crossing (c : Z) (evs : list DomEvent) : Prop :=
  forall k, In onDragLeave (calls_at c evs k) ->
            (0 < counter_before c evs k)%Z.

End Droppable.

(** ** Notions used to state the properties *)

(** Every item of the state: the candidate list, then tier after tier. *)
Definition all_items (s : State) : list ItemRef :=
  elems (candidatelist s) ++ flat_map Tier.items (tierlist s).

(** The number of items across the candidate list and all tiers. *)
Definition totalItems (s : State) : nat :=
  JSSet.size (elems (candidatelist s)) +
  list_sum (map (fun t => JSSet.size (Tier.items t)) (tierlist s)).

(** The tier rendered under the key [l]. *)
Definition findTier (l : string) (tl : list Tier.t) : option Tier.t :=
  find (fun t => String.eqb (Tier.label t) l) tl.

Definition tierItems (l : string) (tl : list Tier.t) : list ItemRef :=
  match findTier l tl with
  | Some t => Tier.items t
  | None => []
  end.

(** The invariants of the data model: no two items of the state share a
    label, and no two tiers share a label. *)
Definition wf (heap : ItemRef -> Item.t) (s : State) : Prop :=
  NoDup (map (label heap) (all_items s)) /\
  NoDup (map Tier.label (tierlist s)).



(** What holds in every state the page can reach. *)
Definition Inv (heap : ItemRef -> Item.t) (s : State) : Prop :=
  wf heap s /\
  (forall i, draggedCandidateItem s = Some i ->
             In i (elems (candidatelist s))) /\
  (forall i, draggedTierItem s = Some i -> In i (all_items s)).

(** The two maps over the tier list of [moveCandidateItemToTier],
    [moveTierItemToAnotherTier] and [handleDropOnCandidateList]. *)
Definition addToTier (target : string) (item : ItemRef)
  (tl : list Tier.t) : list Tier.t :=
  map (fun t => if String.eqb (Tier.label t) target
                then addItemToTier t item else t) tl.

Definition removeFromTier (heap : ItemRef -> Item.t) (originTier : Tier.t)
  (item : ItemRef) (tl : list Tier.t) : list Tier.t :=
  map (fun t => if String.eqb (Tier.label t) (Tier.label originTier)
                then removeItemFromTier heap originTier item else t) tl.

(** The test of [findOriginTier]: the tier holds an item labelled as
    [item] is. *)
Definition holdsLabel (heap : ItemRef -> Item.t) (item : ItemRef)
  (t : Tier.t) : bool :=
  existsb (fun i => label_eqb (label heap i) (label heap item))
          (Tier.items t).

(** The item that a drop on a tier drops from the state: when both drag
    selections are set and the scan finds the origin of the tier item, the
    tier list of [moveTierItemToAnotherTier], built from the tier list of
    the closure, replaces the one of [moveCandidateItemToTier]. *)
Definition lost (heap : ItemRef -> Item.t) (s : State) (e : Event)
  : list ItemRef :=
  match e, draggedCandidateItem s, draggedTierItem s with
  | DropOnTier _, Some i, Some j =>
      match findOriginTier heap s j with
      | Some _ => [i]
      | None => []
      end
  | _, _, _ => []
  end.

(** Runs in which every drop on a tier has one origin, the pool or a tier:
    at most one drag selection is set when the drop happens. *)
Definition single_origin (s : State) (e : Event) : Prop :=
  match e with
  | DropOnTier _ => draggedCandidateItem s = None \/ draggedTierItem s = None
  | _ => True
  end.

Inductive reachable_single_origin (heap : ItemRef -> Item.t) (s0 : State)
  : State -> Prop :=
| single_origin_init : reachable_single_origin heap s0 s0
| single_origin_step s e :
    reachable_single_origin heap s0 s -> enabled s e -> single_origin s e ->
    reachable_single_origin heap s0 (step heap s e).

(** A heap and a state in which two objects of the pool carry the label
    of Item 1, the first of them being dragged. *)
Definition Item1_twin : ItemRef := 4.

Definition twin_heap (i : ItemRef) : Item.t :=
  match i with
  | 4 => Item.mk (Some "Item 1"%string) None
  | _ => seed_heap i
  end.

Definition twin_state : State :=
  {| tierlist := tierlist seed;
     candidatelist :=
       {| addr := 0; elems := JSSet.from [Item1; Item2; Item3; Item1_twin] |};
     draggedCandidateItem := Some Item1;
     draggedTierItem := None;
     dragImages := 1 |}.

(** ** Runs, rendered keys and the earlier page *)

(** A run of the page: the events are handled one after the other. *)
Definition steps (heap : ItemRef -> Item.t) (s : State) (evs : list Event)
  : State :=
  fold_left (step heap) evs s.

(** The events of a drag that is not a drop. *)
Definition is_drag (e : Event) : Prop :=
  match e with
  | DragStartCandidate _ | DragEndCandidate
  | DragStartTier _ | DragEndTier => True
  | _ => False
  end.

(** A tier without its items: label, order and colours. *)
Definition metadata (t : Tier.t) : Tier.t := Tier.with_items t [].

(** The React keys of the rendered lists: [key={item.label}] in
    [CandidateList] and in [Tier], [key={tier.label}] in [TierList]. *)
Definition candidateKeys (heap : ItemRef -> Item.t) (s : State)
  : list (option string) :=
  map (label heap) (elems (candidatelist s)).

Definition tierKeys (heap : ItemRef -> Item.t) (t : Tier.t)
  : list (option string) :=
  map (label heap) (Tier.items t).

Definition tierlistKeys (s : State) : list string :=
  map Tier.label (tierlist s).

(** A heap and a state in which tier A holds Item 1 and tier B a second
    object with the label of Item 1. *)
Definition twin_tiers : State :=
  {| tierlist :=
       [tier_S;
        Tier.with_items tier_A [Item1];
        Tier.with_items tier_B [Item1_twin];
        tier_C; tier_D; tier_E; tier_F];
     candidatelist := {| addr := 0; elems := [Item2; Item3] |};
     draggedCandidateItem := None;
     draggedTierItem := Some Item1_twin;
     dragImages := 1 |}.

(** Everything but the hover ticks: the events other than [DragOver] and
    the callbacks other than [onDragOver]. *)
Definition not_over (e : Droppable.DomEvent) : bool :=
  match e with
  | Droppable.DragOver => false
  | _ => true
  end.

Definition not_onDragOver (cb : Droppable.Callback) : bool :=
  match cb with
  | Droppable.onDragOver => false
  | _ => true
  end.

(** Enter and leave events that never leave more often than they enter. *)
Fixpoint well_nested (depth : Z) (evs : list Droppable.DomEvent) : Prop :=
  match evs with
  | [] => True
  | Droppable.DragEnter :: evs' => well_nested (depth + 1) evs'
  | Droppable.DragLeave :: evs' =>
      (0 < depth)%Z /\ well_nested (depth - 1) evs'
  | _ :: _ => False
  end.

(** The earlier page: items are dragged from the candidate list to a tier
    and there is one drag selection, [draggedItem]; the items of a tier are
    not draggable, and there is neither a drop on the candidate list nor a
    reset. *)
Module V1.

Record State := {
  tierlist : list Tier.t;
  candidatelist : SetObj;
  draggedItem : option ItemRef;
  dragImages : nat
}.

(** What a handler has done so far.  The only call of [setCandidatelist]
    passes the Set object of the closure, so the state always holds that
    object, with its current elements. *)
Record Handler := {
  pool : JSSet.t;
  nextTierlist : list Tier.t;
  nextDraggedItem : option ItemRef;
  document : nat
}.

Definition start (s : State) : Handler :=
  {| pool := elems (candidatelist s);
     nextTierlist := tierlist s;
     nextDraggedItem := draggedItem s;
     document := dragImages s |}.

Definition commit (s : State) (h : Handler) : State :=
  {| tierlist := nextTierlist h;
     candidatelist := {| addr := addr (candidatelist s); elems := pool h |};
     draggedItem := nextDraggedItem h;
     dragImages := document h |}.

Definition Action := Handler -> Handler.

Definition skip : Action := fun h => h.
Definition seq (f g : Action) : Action := fun h => g (f h).

Definition setTierlist (v : list Tier.t) : Action := fun h =>
  {| pool := pool h; nextTierlist := v;
     nextDraggedItem := nextDraggedItem h; document := document h |}.

Definition setCandidatelist_same : Action := fun h => h.

Definition candidatelist_delete (item : ItemRef) : Action := fun h =>
  {| pool := JSSet.delete (pool h) item; nextTierlist := nextTierlist h;
     nextDraggedItem := nextDraggedItem h; document := document h |}.

Definition setDraggedItem (v : option ItemRef) : Action := fun h =>
  {| pool := pool h; nextTierlist := nextTierlist h;
     nextDraggedItem := v; document := document h |}.

Definition createDisposableDragImage : Action := fun h =>
  {| pool := pool h; nextTierlist := nextTierlist h;
     nextDraggedItem := nextDraggedItem h; document := S (document h) |}.

Definition disposeDragImage : Action := fun h =>
  {| pool := pool h; nextTierlist := nextTierlist h;
     nextDraggedItem := nextDraggedItem h;
     document := Nat.pred (document h) |}.

Definition dragItem (item : ItemRef) : Action := setDraggedItem (Some item).

Definition undragItem : Action := setDraggedItem None.

Definition removeItemFromCandidatelist (item : ItemRef) : Action :=
  seq (candidatelist_delete item) setCandidatelist_same.

Definition addItemToTier (tier : Tier.t) (item : ItemRef) : Tier.t :=
  Tier.with_items tier (JSSet.from (Tier.items tier ++ [item])).

(** [c] is the closure of the render in which the handler was built. *)
Definition addItemToTierlist (c : State) (tier : Tier.t) : Action :=
  match draggedItem c with
  | None => skip
  | Some item =>
      seq (setTierlist
             (map (fun t => if String.eqb (Tier.label t) (Tier.label tier)
                            then addItemToTier t item else t)
                  (tierlist c)))
          (seq (removeItemFromCandidatelist item)
               (seq (setDraggedItem None) disposeDragImage))
  end.

Inductive Event :=
| DragStart (item : ItemRef)
| DragEnd
| DropOnTier (tier : Tier.t).

Definition handler (c : State) (e : Event) : Action :=
  match e with
  | DragStart item => seq createDisposableDragImage (dragItem item)
  | DragEnd => seq disposeDragImage undragItem
  | DropOnTier tier => addItemToTierlist c tier
  end.

Definition step (s : State) (e : Event) : State :=
  commit s (handler s e (start s)).

Definition enabled (s : State) (e : Event) : Prop :=
  match e with
  | DragStart item => In item (elems (candidatelist s))
  | DragEnd => True
  | DropOnTier tier => In tier (tierlist s)
  end.

Inductive reachable (s0 : State) : State -> Prop :=
| reachable_init : reachable s0 s0
| reachable_step s e :
    reachable s0 s -> enabled s e -> reachable s0 (step s e).

Definition seed : State :=
  {| tierlist := [tier_S; tier_A; tier_B; tier_C; tier_D; tier_E; tier_F];
     candidatelist :=
       {| addr := 0; elems := JSSet.from [Item1; Item2; Item3] |};
     draggedItem := None;
     dragImages := 0 |}.

End V1.

(** The state of the earlier page as a state of the later one, and its
    events as events of the later one. *)
Definition later_state (s : V1.State) : State :=
  {| tierlist := V1.tierlist s;
     candidatelist := V1.candidatelist s;
     draggedCandidateItem := V1.draggedItem s;
     draggedTierItem := None;
     dragImages := V1.dragImages s |}.

Definition later_event (e : V1.Event) : Event :=
  match e with
  | V1.DragStart item => DragStartCandidate item
  | V1.DragEnd => DragEndCandidate
  | V1.DropOnTier tier => DropOnTier tier
  end.

(** * Properties *)

(** ** Sets *)

Lemma has_In (s : JSSet.t) (x : nat) : JSSet.has s x = true <-> In x s.
Proof.
  unfold JSSet.has. rewrite existsb_exists. split.
  - intros [y [Hy E]]. apply Nat.eqb_eq in E. now subst.
  - intro H. exists x. split; [assumption | apply Nat.eqb_refl].
Qed.

Lemma has_false (s : JSSet.t) (x : nat) : JSSet.has s x = false <-> ~ In x s.
Proof.
  rewrite <- has_In. destruct (JSSet.has s x); split; congruence.
Qed.

Lemma add_In (s : JSSet.t) (x y : nat) :
  In y (JSSet.add s x) <-> In y s \/ y = x.
Proof.
  unfold JSSet.add. destruct (JSSet.has s x) eqn:E.
  - apply has_In in E. split; [now left | intros [H | ->]; assumption].
  - rewrite in_app_iff. simpl. intuition.
Qed.

Lemma add_NoDup (s : JSSet.t) (x : nat) : NoDup s -> NoDup (JSSet.add s x).
Proof.
  intro H. unfold JSSet.add. destruct (JSSet.has s x) eqn:E; [assumption |].
  apply has_false in E. apply NoDup_app; auto.
  - constructor; [intros [] | constructor].
  - intros a Ha [<- | []]. contradiction.
Qed.

Lemma fold_add_In (l : list nat) (acc : JSSet.t) (y : nat) :
  In y (fold_left JSSet.add l acc) <-> In y acc \/ In y l.
Proof.
  revert acc. induction l as [| x l IH]; intro acc; simpl.
  - intuition.
  - rewrite IH, add_In. intuition.
Qed.

Lemma fold_add_NoDup (l : list nat) (acc : JSSet.t) :
  NoDup acc -> NoDup (fold_left JSSet.add l acc).
Proof.
  revert acc. induction l as [| x l IH]; intros acc H; simpl.
  - assumption.
  - apply IH, add_NoDup, H.
Qed.

Lemma fold_add_fresh (l : list nat) (acc : JSSet.t) :
  NoDup (acc ++ l) -> fold_left JSSet.add l acc = acc ++ l.
Proof.
  revert acc. induction l as [| x l IH]; intros acc H; simpl.
  - now rewrite app_nil_r.
  - assert (Hx : JSSet.has acc x = false).
    { apply has_false. intro Hin. apply NoDup_remove_2 in H.
      apply H, in_or_app. now left. }
    unfold JSSet.add at 2. rewrite Hx.
    rewrite IH; rewrite <- app_assoc; simpl; [reflexivity | assumption].
Qed.

Lemma from_In (l : list nat) (y : nat) : In y (JSSet.from l) <-> In y l.
Proof. unfold JSSet.from. rewrite fold_add_In. simpl. intuition. Qed.

Lemma from_NoDup (l : list nat) : NoDup (JSSet.from l).
Proof. apply fold_add_NoDup. constructor. Qed.

Lemma from_fresh (l : list nat) : NoDup l -> JSSet.from l = l.
Proof. intro H. unfold JSSet.from. now rewrite fold_add_fresh. Qed.

Lemma delete_In (s : JSSet.t) (x y : nat) :
  In y (JSSet.delete s x) <-> In y s /\ y <> x.
Proof.
  unfold JSSet.delete. rewrite filter_In, negb_true_iff, Nat.eqb_neq.
  intuition.
Qed.

Lemma delete_Permutation (s : JSSet.t) (x : nat) :
  NoDup s -> In x s -> Permutation s (x :: JSSet.delete s x).
Proof.
  unfold JSSet.delete.
  induction s as [| a s IH]; intros Hnd Hin; [destruct Hin |].
  inversion Hnd as [| ? ? Ha Hs]; subst. simpl.
  destruct (Nat.eqb x a) eqn:E; simpl.
  - apply Nat.eqb_eq in E. subst a. constructor.
    rewrite forallb_filter_id; [reflexivity |].
    apply forallb_forall.
    intros y Hy. apply negb_true_iff, Nat.eqb_neq. intros ->. contradiction.
  - apply Nat.eqb_neq in E. destruct Hin as [-> | Hin]; [congruence |].
    rewrite perm_swap. constructor. apply IH; assumption.
Qed.

(** ** Labels and tier lists *)

Lemma label_eqb_eq (a b : option string) : label_eqb a b = true <-> a = b.
Proof.
  destruct a as [x |], b as [y |]; simpl; try (split; congruence).
  rewrite String.eqb_eq. split; congruence.
Qed.

Lemma label_eqb_refl (a : option string) : label_eqb a a = true.
Proof. now apply label_eqb_eq. Qed.

Lemma find_truthy {A : Type} (f : A -> bool) (l : list A) :
  match find f l with Some _ => true | None => false end = existsb f l.
Proof.
  induction l as [| a l IH]; simpl; [reflexivity |].
  destruct (f a); [reflexivity | exact IH].
Qed.

Lemma list_sum_sizes (tl : list Tier.t) :
  list_sum (map (fun t => JSSet.size (Tier.items t)) tl) =
  length (flat_map Tier.items tl).
Proof.
  induction tl as [| t tl IH]; simpl; [reflexivity |].
  rewrite length_app, IH. reflexivity.
Qed.

Lemma totalItems_length (s : State) : totalItems s = length (all_items s).
Proof.
  unfold totalItems, all_items. now rewrite length_app, list_sum_sizes.
Qed.

Lemma fold_concat_items (tl : list Tier.t) (acc : list ItemRef) :
  fold_left (fun result tier => result ++ Tier.items tier) tl acc =
  acc ++ flat_map Tier.items tl.
Proof.
  revert acc. induction tl as [| t tl IH]; intro acc; simpl.
  - now rewrite app_nil_r.
  - now rewrite IH, app_assoc.
Qed.

Lemma findTier_map (g : Tier.t -> Tier.t) (l : string) (tl : list Tier.t) :
  (forall t, Tier.label (g t) = Tier.label t) ->
  findTier l (map g tl) = option_map g (findTier l tl).
Proof.
  intro Hg. unfold findTier.
  induction tl as [| t tl IH]; simpl; [reflexivity |].
  rewrite Hg. destruct (String.eqb (Tier.label t) l); [reflexivity | exact IH].
Qed.

Lemma findTier_label (l : string) (tl : list Tier.t) (t : Tier.t) :
  findTier l tl = Some t -> In t tl /\ Tier.label t = l.
Proof.
  intro H. apply find_some in H. now rewrite String.eqb_eq in H.
Qed.

Lemma findTier_In (tl : list Tier.t) (T : Tier.t) :
  NoDup (map Tier.label tl) -> In T tl -> findTier (Tier.label T) tl = Some T.
Proof.
  unfold findTier.
  induction tl as [| t tl IH]; intros Hnd Hin; [destruct Hin |].
  simpl in *. inversion Hnd as [| ? ? Ht Htl]; subst.
  destruct (String.eqb (Tier.label t) (Tier.label T)) eqn:E.
  - destruct Hin as [-> | Hin]; [reflexivity |].
    apply String.eqb_eq in E. exfalso. apply Ht. rewrite E.
    now apply in_map.
  - destruct Hin as [-> | Hin]; [now rewrite String.eqb_refl in E |].
    now apply IH.
Qed.

Lemma tier_eq_by_label (tl : list Tier.t) (t u : Tier.t) :
  NoDup (map Tier.label tl) -> In t tl -> In u tl ->
  Tier.label t = Tier.label u -> t = u.
Proof.
  intros Hnd Ht Hu E.
  pose proof (findTier_In _ _ Hnd Ht) as H1.
  pose proof (findTier_In _ _ Hnd Hu) as H2.
  rewrite E in H1. congruence.
Qed.

Lemma addItemToTier_label (t : Tier.t) (i : ItemRef) :
  Tier.label (addItemToTier t i) = Tier.label t.
Proof. reflexivity. Qed.

Lemma addToTier_step_label (l : string) (i : ItemRef) (t : Tier.t) :
  Tier.label (if String.eqb (Tier.label t) l then addItemToTier t i else t) =
  Tier.label t.
Proof. now destruct (String.eqb (Tier.label t) l). Qed.

Lemma addToTier_labels (l : string) (i : ItemRef) (tl : list Tier.t) :
  map Tier.label (addToTier l i tl) = map Tier.label tl.
Proof.
  unfold addToTier. rewrite map_map. apply map_ext.
  intro t. apply addToTier_step_label.
Qed.

Lemma addToTier_other (l : string) (i : ItemRef) (tl : list Tier.t) :
  ~ In l (map Tier.label tl) -> addToTier l i tl = tl.
Proof.
  intro H. unfold addToTier. rewrite <- (map_id tl) at 2.
  apply map_ext_in. intros t Ht.
  destruct (String.eqb (Tier.label t) l) eqn:E; [| reflexivity].
  apply String.eqb_eq in E. exfalso. apply H. rewrite <- E. now apply in_map.
Qed.

Lemma addToTier_Permutation (l : string) (i : ItemRef) (tl : list Tier.t) :
  NoDup (map Tier.label tl) -> In l (map Tier.label tl) ->
  NoDup (flat_map Tier.items tl) -> ~ In i (flat_map Tier.items tl) ->
  Permutation (flat_map Tier.items (addToTier l i tl))
              (i :: flat_map Tier.items tl).
Proof.
  induction tl as [| t tl IH]; intros Hlab Hl Hnd Hi; [destruct Hl |].
  simpl in *. inversion Hlab as [| ? ? Ht Htl]; subst.
  destruct (String.eqb (Tier.label t) l) eqn:E.
  - apply String.eqb_eq in E. subst l.
    fold (addToTier (Tier.label t) i tl). rewrite addToTier_other by assumption.
    simpl. rewrite from_fresh.
    + rewrite <- app_assoc. simpl. symmetry. apply Permutation_middle.
    + apply NoDup_app_remove_r in Hnd. apply NoDup_app; auto.
      * constructor; [intros [] | constructor].
      * intros a Ha [<- | []]. apply Hi, in_or_app. now left.
  - apply String.eqb_neq in E. destruct Hl as [Hl | Hl]; [congruence |].
    fold (addToTier l i tl).
    rewrite IH; auto.
    + symmetry. apply Permutation_middle.
    + now apply NoDup_app_remove_l in Hnd.
    + intro H. apply Hi, in_or_app. now right.
Qed.

Section Facts.

Variable heap : ItemRef -> Item.t.

Local Notation "'lbl'" := (label heap).
Local Notation "'holds'" := (holdsLabel heap).

Lemma findOriginTier_holds (s : State) (item : ItemRef) :
  findOriginTier heap s item = find (holds item) (tierlist s).
Proof.
  unfold findOriginTier. induction (tierlist s) as [| t tl IH]; simpl.
  - reflexivity.
  - rewrite find_truthy. fold (holds item t).
    destruct (holds item t); [reflexivity | exact IH].
Qed.

Lemma holds_true (item : ItemRef) (t : Tier.t) :
  holds item t = true <->
  exists j, In j (Tier.items t) /\ lbl j = lbl item.
Proof.
  unfold holdsLabel. rewrite existsb_exists.
  split; intros [j [Hj E]]; exists j; split; auto; now apply label_eqb_eq.
Qed.

Lemma NoDup_map_eq {A B : Type} (f : A -> B) (l : list A) (x y : A) :
  NoDup (map f l) -> In x l -> In y l -> f x = f y -> x = y.
Proof.
  induction l as [| a l IH]; intros Hnd Hx Hy E; [destruct Hx |].
  simpl in Hnd. inversion Hnd as [| ? ? Ha Hl]; subst.
  destruct Hx as [-> | Hx], Hy as [-> | Hy]; auto.
  - exfalso. apply Ha. rewrite E. now apply in_map.
  - exfalso. apply Ha. rewrite <- E. now apply in_map.
Qed.

Lemma NoDup_app_disjoint {A : Type} (l1 l2 : list A) (x : A) :
  NoDup (l1 ++ l2) -> In x l1 -> In x l2 -> False.
Proof.
  induction l1 as [| a l1 IH]; intros Hnd H1 H2; [destruct H1 |].
  simpl in Hnd. inversion Hnd as [| ? ? Ha Hl]; subst.
  destruct H1 as [-> | H1].
  - apply Ha, in_or_app. now right.
  - now apply IH.
Qed.

(** With labels unique across the tiers, the scan for the origin finds the
    tier that holds the item. *)
Lemma findOrigin_found (tl : list Tier.t) (A : Tier.t) (item : ItemRef) :
  NoDup (map lbl (flat_map Tier.items tl)) ->
  In A tl -> In item (Tier.items A) ->
  find (holds item) tl = Some A.
Proof.
  induction tl as [| t tl IH]; intros Hnd HA Hi; [destruct HA |].
  simpl in *. rewrite map_app in Hnd.
  destruct (holds item t) eqn:E.
  - destruct HA as [-> | HA]; [reflexivity | exfalso].
    apply holds_true in E. destruct E as [j [Hj Ej]].
    apply (NoDup_app_disjoint _ _ (lbl item) Hnd).
    + rewrite <- Ej. now apply in_map.
    + apply in_map, in_flat_map. now exists A.
  - destruct HA as [-> | HA].
    + assert (holds item A = true) by (apply holds_true; now exists item).
      congruence.
    + apply IH; auto. now apply NoDup_app_remove_l in Hnd.
Qed.

(** The scan finds nothing exactly when no tier holds the label. *)
Lemma findOrigin_none (tl : list Tier.t) (item : ItemRef) :
  find (holds item) tl = None <->
  forall t j, In t tl -> In j (Tier.items t) -> lbl j <> lbl item.
Proof.
  split.
  - intros H t j Ht Hj E.
    pose proof (find_none _ _ H t Ht) as Hf.
    assert (holds item t = true) by (apply holds_true; now exists j).
    congruence.
  - intro H. induction tl as [| t tl IH]; simpl; [reflexivity |].
    destruct (holds item t) eqn:E.
    + apply holds_true in E. destruct E as [j [Hj Ej]].
      exfalso. apply (H t j); simpl; auto.
    + apply IH. intros u j Hu. apply H. now right.
Qed.

Lemma findOrigin_some (tl : list Tier.t) (o : Tier.t) (item : ItemRef) :
  find (holds item) tl = Some o ->
  In o tl /\ exists j, In j (Tier.items o) /\ lbl j = lbl item.
Proof.
  intro H. apply find_some in H. now rewrite holds_true in H.
Qed.

Lemma removeFromTier_labels (o : Tier.t) (i : ItemRef) (tl : list Tier.t) :
  map Tier.label (removeFromTier heap o i tl) = map Tier.label tl.
Proof.
  unfold removeFromTier. rewrite map_map. apply map_ext.
  intro t. destruct (String.eqb (Tier.label t) (Tier.label o)) eqn:E; auto.
  apply String.eqb_eq in E. now rewrite E.
Qed.

Lemma removeFromTier_other (o : Tier.t) (i : ItemRef) (tl : list Tier.t) :
  ~ In (Tier.label o) (map Tier.label tl) -> removeFromTier heap o i tl = tl.
Proof.
  intro H. unfold removeFromTier. rewrite <- (map_id tl) at 2.
  apply map_ext_in. intros t Ht.
  destruct (String.eqb (Tier.label t) (Tier.label o)) eqn:E; [| reflexivity].
  apply String.eqb_eq in E. exfalso. apply H. rewrite <- E. now apply in_map.
Qed.

Lemma filter_label_absent (i : ItemRef) (l : list ItemRef) :
  ~ In (lbl i) (map lbl l) ->
  filter (fun j => negb (label_eqb (lbl j) (lbl i))) l = l.
Proof.
  intro H. apply forallb_filter_id, forallb_forall. intros j Hj.
  apply negb_true_iff. destruct (label_eqb (lbl j) (lbl i)) eqn:E; auto.
  apply label_eqb_eq in E. exfalso. apply H. rewrite <- E. now apply in_map.
Qed.

Lemma filter_label_Permutation (i : ItemRef) (l : list ItemRef) :
  NoDup (map lbl l) -> In i l ->
  Permutation l (i :: filter (fun j => negb (label_eqb (lbl j) (lbl i))) l).
Proof.
  induction l as [| a l IH]; intros Hnd Hin; [destruct Hin |].
  simpl in Hnd. inversion Hnd as [| ? ? Ha Hl]; subst. simpl.
  destruct (label_eqb (lbl a) (lbl i)) eqn:E; simpl.
  - apply label_eqb_eq in E.
    assert (a = i).
    { destruct Hin as [-> | Hin]; auto. exfalso. apply Ha. rewrite E.
      now apply in_map. }
    subst a. constructor. now rewrite filter_label_absent.
  - destruct Hin as [-> | Hin]; [now rewrite label_eqb_refl in E |].
    rewrite perm_swap. constructor. now apply IH.
Qed.

Lemma removeItemFromTier_items (o : Tier.t) (i : ItemRef) :
  NoDup (Tier.items o) ->
  Tier.items (removeItemFromTier heap o i) =
  filter (fun j => negb (label_eqb (lbl j) (lbl i))) (Tier.items o).
Proof.
  intro H. simpl. apply from_fresh, NoDup_filter, H.
Qed.

Lemma removeFromTier_Permutation (o : Tier.t) (i : ItemRef)
  (tl : list Tier.t) :
  NoDup (map Tier.label tl) -> In o tl -> In i (Tier.items o) ->
  NoDup (map lbl (flat_map Tier.items tl)) ->
  Permutation (flat_map Tier.items tl)
              (i :: flat_map Tier.items (removeFromTier heap o i tl)).
Proof.
  induction tl as [| t tl IH]; intros Hlab Ho Hi Hnd; [destruct Ho |].
  simpl in *. inversion Hlab as [| ? ? Ht Htl]; subst.
  rewrite map_app in Hnd.
  fold (removeFromTier heap o i tl).
  destruct (String.eqb (Tier.label t) (Tier.label o)) eqn:E.
  - apply String.eqb_eq in E.
    assert (t = o).
    { destruct Ho as [-> | Ho]; auto. exfalso. apply Ht. rewrite E.
      now apply in_map. }
    subst t. rewrite removeFromTier_other by assumption.
    apply NoDup_app_remove_r in Hnd.
    rewrite removeItemFromTier_items by (now apply NoDup_map_inv in Hnd).
    apply (Permutation_app_tail (flat_map Tier.items tl)
             (filter_label_Permutation i (Tier.items o) Hnd Hi)).
  - apply String.eqb_neq in E.
    destruct Ho as [-> | Ho]; [congruence |].
    rewrite (IH Htl Ho Hi) at 1 by (now apply NoDup_app_remove_l in Hnd).
    symmetry. apply Permutation_middle.
Qed.

End Facts.

(** ** Drops *)

Section Drops.

Variable heap : ItemRef -> Item.t.

Local Notation "'lbl'" := (label heap).

Lemma SetObj_eta (o : SetObj) : {| addr := addr o; elems := elems o |} = o.
Proof. now destruct o. Qed.

Lemma wf_tiers (s : State) :
  wf heap s -> NoDup (map lbl (flat_map Tier.items (tierlist s))).
Proof.
  intros [H _]. unfold all_items in H. rewrite map_app in H.
  now apply NoDup_app_remove_l in H.
Qed.

Lemma wf_refs (s : State) : wf heap s -> NoDup (all_items s).
Proof. intros [H _]. now apply NoDup_map_inv in H. Qed.

Lemma wf_pool_not_in_tier (s : State) (i : ItemRef) :
  wf heap s -> In i (elems (candidatelist s)) ->
  ~ In i (flat_map Tier.items (tierlist s)).
Proof.
  intros Hwf Hi Hin. apply wf_refs in Hwf.
  exact (NoDup_app_disjoint _ _ i Hwf Hi Hin).
Qed.

(** A drop on a tier when only [draggedCandidateItem] is set. *)
Lemma step_drop_pool_origin (s : State) (T : Tier.t) (I : ItemRef) :
  draggedCandidateItem s = Some I -> draggedTierItem s = None ->
  step heap s (DropOnTier T) =
  {| tierlist := addToTier (Tier.label T) I (tierlist s);
     candidatelist :=
       {| addr := addr (candidatelist s);
          elems := JSSet.delete (elems (candidatelist s)) I |};
     draggedCandidateItem := None;
     draggedTierItem := None;
     dragImages := Nat.pred (dragImages s) |}.
Proof.
  intros H1 H2. unfold step, handler, handleDropOnTierList, start.
  rewrite H1, H2. reflexivity.
Qed.

(** A drop on a tier when only [draggedTierItem] is set and the scan finds
    an origin. *)
Lemma step_drop_tier_origin (s : State) (T o : Tier.t) (I : ItemRef) :
  draggedCandidateItem s = None -> draggedTierItem s = Some I ->
  findOriginTier heap s I = Some o ->
  step heap s (DropOnTier T) =
  {| tierlist :=
       addToTier (Tier.label T) I (removeFromTier heap o I (tierlist s));
     candidatelist := candidatelist s;
     draggedCandidateItem := None;
     draggedTierItem := None;
     dragImages := Nat.pred (dragImages s) |}.
Proof.
  intros H1 H2 H3.
  unfold step, handler, handleDropOnTierList, moveTierItemToAnotherTier, start.
  rewrite H1, H2, H3. unfold commit, seq, skip. simpl.
  now rewrite SetObj_eta.
Qed.

(** Taking an item out of its tier and adding it to a tier keeps the items
    of the tier list, up to their order. *)
Lemma move_Permutation (tl : list Tier.t) (T o : Tier.t) (I : ItemRef) :
  NoDup (map Tier.label tl) ->
  NoDup (map lbl (flat_map Tier.items tl)) ->
  In T tl -> In o tl -> In I (Tier.items o) ->
  Permutation (flat_map Tier.items tl)
    (flat_map Tier.items
       (addToTier (Tier.label T) I (removeFromTier heap o I tl))).
Proof.
  intros Hlab Hnd HT Ho HI.
  pose proof (removeFromTier_Permutation heap o I tl Hlab Ho HI Hnd) as P.
  assert (N : NoDup (I :: flat_map Tier.items (removeFromTier heap o I tl))).
  { eapply Permutation_NoDup; [exact P |]. now apply NoDup_map_inv in Hnd. }
  inversion N as [| ? ? NI Nrest]; subst.
  rewrite P. symmetry. apply addToTier_Permutation; auto.
  - now rewrite removeFromTier_labels.
  - rewrite removeFromTier_labels. now apply in_map.
Qed.

(** C1: in a state that satisfies the invariants of the data model, for
    every item I of the candidate pool, a drop on tier T while the
    pool-origin drag selection is I leaves I out of the pool, in the items
    of T and in no other tier, the total number of items across the pool
    and the tiers unchanged, and the pool-origin drag selection cleared. *)
Theorem drop_pool_item_on_tier (s : State) (T : Tier.t) (I : ItemRef) :
  wf heap s -> In T (tierlist s) ->
  In I (elems (candidatelist s)) ->
  draggedCandidateItem s = Some I -> draggedTierItem s = None ->
  let s' := step heap s (DropOnTier T) in
  ~ In I (elems (candidatelist s')) /\
  In I (tierItems (Tier.label T) (tierlist s')) /\
  (forall t, In t (tierlist s') -> Tier.label t <> Tier.label T ->
             ~ In I (Tier.items t)) /\
  totalItems s' = totalItems s /\
  draggedCandidateItem s' = None.
Proof.
  intros Hwf HT HI Hc Ht s'. subst s'.
  rewrite (step_drop_pool_origin s T I Hc Ht). simpl.
  pose proof (wf_pool_not_in_tier s I Hwf HI) as Hout.
  pose proof (wf_refs s Hwf) as Hnd. unfold all_items in Hnd.
  destruct Hwf as [_ Hlab].
  repeat split.
  - rewrite delete_In. intros [_ H]. now apply H.
  - unfold tierItems, addToTier.
    rewrite findTier_map by (intro; apply addToTier_step_label).
    rewrite (findTier_In _ _ Hlab HT). simpl.
    rewrite String.eqb_refl. simpl. apply from_In, in_or_app. right. now left.
  - intros t Hin Hne HIt. unfold addToTier in Hin.
    apply in_map_iff in Hin. destruct Hin as [t0 [E Ht0]].
    destruct (String.eqb (Tier.label t0) (Tier.label T)) eqn:El.
    + apply String.eqb_eq in El. subst t.
      now rewrite addItemToTier_label in Hne.
    + subst t. apply Hout, in_flat_map. now exists t0.
  - rewrite !totalItems_length. unfold all_items. simpl.
    rewrite !length_app.
    pose proof (delete_Permutation _ I (NoDup_app_remove_r _ _ Hnd) HI) as P1.
    pose proof (addToTier_Permutation (Tier.label T) I _ Hlab
                  (in_map Tier.label _ _ HT)
                  (NoDup_app_remove_l _ _ Hnd) Hout) as P2.
    apply Permutation_length in P1, P2. simpl in P1, P2. lia.
Qed.

(** C2: in a state that satisfies the invariants of the data model, for
    every item I of a tier A and every other tier B, a drop on B while the
    tier-origin drag selection is I leaves I out of the items of A and in
    the items of B, the total number of items across the pool and the
    tiers unchanged, and the tier-origin drag selection cleared. *)
Theorem drop_tier_item_on_other_tier (s : State) (A B : Tier.t) (I : ItemRef) :
  wf heap s -> In A (tierlist s) -> In B (tierlist s) -> A <> B ->
  In I (Tier.items A) ->
  draggedTierItem s = Some I -> draggedCandidateItem s = None ->
  let s' := step heap s (DropOnTier B) in
  ~ In I (tierItems (Tier.label A) (tierlist s')) /\
  In I (tierItems (Tier.label B) (tierlist s')) /\
  totalItems s' = totalItems s /\
  draggedTierItem s' = None.
Proof.
  intros Hwf HA HB Hne HI Ht Hc s'. subst s'.
  pose proof (wf_tiers s Hwf) as Hnd.
  destruct Hwf as [_ Hlab].
  assert (Ho : findOriginTier heap s I = Some A).
  { rewrite findOriginTier_holds. now apply findOrigin_found. }
  rewrite (step_drop_tier_origin s B A I Hc Ht Ho). simpl.
  assert (El : String.eqb (Tier.label A) (Tier.label B) = false).
  { apply String.eqb_neq. intro E. apply Hne.
    exact (tier_eq_by_label _ _ _ Hlab HA HB E). }
  assert (El' : String.eqb (Tier.label B) (Tier.label A) = false).
  { now rewrite String.eqb_sym. }
  assert (Hrm : forall t,
             Tier.label (if String.eqb (Tier.label t) (Tier.label A)
                         then removeItemFromTier heap A I else t) =
             Tier.label t).
  { intro t. destruct (String.eqb (Tier.label t) (Tier.label A)) eqn:E; auto.
    apply String.eqb_eq in E. now rewrite E. }
  repeat split.
  - unfold tierItems, addToTier, removeFromTier.
    rewrite findTier_map by (intro; apply addToTier_step_label).
    rewrite findTier_map by exact Hrm.
    rewrite (findTier_In _ _ Hlab HA). simpl.
    rewrite String.eqb_refl. simpl. rewrite El. simpl.
    rewrite from_In, filter_In, label_eqb_refl. simpl.
    intros [_ H]. discriminate.
  - unfold tierItems, addToTier, removeFromTier.
    rewrite findTier_map by (intro; apply addToTier_step_label).
    rewrite findTier_map by exact Hrm.
    rewrite (findTier_In _ _ Hlab HB). simpl.
    rewrite El'. rewrite String.eqb_refl. simpl.
    apply from_In, in_or_app. right. now left.
  - rewrite !totalItems_length. unfold all_items. simpl.
    rewrite !length_app. f_equal. symmetry.
    apply Permutation_length, move_Permutation; auto.
Qed.

(** C6: in a state that satisfies the invariants of the data model, for
    every item I of a tier T, a tier-origin drop of I on T itself keeps the
    members of T (the items of T after the drop are those of before, each
    once, I being now the last), every other tier and the pool. *)
Theorem drop_tier_item_on_same_tier (s : State) (T : Tier.t) (I : ItemRef) :
  wf heap s -> In T (tierlist s) -> In I (Tier.items T) ->
  draggedTierItem s = Some I -> draggedCandidateItem s = None ->
  let s' := step heap s (DropOnTier T) in
  (exists T', findTier (Tier.label T) (tierlist s') = Some T' /\
              Permutation (Tier.items T') (Tier.items T) /\
              Tier.with_items T' (Tier.items T) = T) /\
  Forall2 (fun t t' => Tier.label t' = Tier.label t /\
                       (Tier.label t <> Tier.label T -> t' = t))
          (tierlist s) (tierlist s') /\
  candidatelist s' = candidatelist s.
Proof.
  intros Hwf HT HI Ht Hc s'. subst s'.
  pose proof (wf_tiers s Hwf) as Hnd.
  destruct Hwf as [_ Hlab].
  assert (Ho : findOriginTier heap s I = Some T).
  { rewrite findOriginTier_holds. now apply findOrigin_found. }
  rewrite (step_drop_tier_origin s T T I Hc Ht Ho). simpl.
  assert (HndT : NoDup (map lbl (Tier.items T))).
  { clear - Hnd HT. induction (tierlist s) as [| t tl IH]; [destruct HT |].
    simpl in Hnd. rewrite map_app in Hnd. destruct HT as [-> | HT].
    - now apply NoDup_app_remove_r in Hnd.
    - apply IH; auto. now apply NoDup_app_remove_l in Hnd. }
  repeat split.
  - exists (addItemToTier (removeItemFromTier heap T I) I). repeat split.
    + unfold addToTier, removeFromTier.
      rewrite findTier_map by (intro; apply addToTier_step_label).
      rewrite findTier_map.
      * rewrite (findTier_In _ _ Hlab HT). simpl.
        now rewrite !String.eqb_refl.
      * intro t.
        destruct (String.eqb (Tier.label t) (Tier.label T)) eqn:E; auto.
        apply String.eqb_eq in E. now rewrite E.
    + pose proof (filter_label_Permutation heap I (Tier.items T) HndT HI) as P.
      assert (N : NoDup (I :: filter (fun j => negb (label_eqb (lbl j) (lbl I)))
                                     (Tier.items T))).
      { eapply Permutation_NoDup; [exact P |]. now apply NoDup_map_inv in HndT. }
      simpl. rewrite (from_fresh _ (NoDup_filter _ (NoDup_map_inv _ _ HndT))).
      rewrite from_fresh.
      * etransitivity; [| symmetry; exact P].
        symmetry. apply Permutation_cons_append.
      * eapply Permutation_NoDup; [apply Permutation_cons_append | exact N].
    + now destruct T.
  - unfold addToTier, removeFromTier. rewrite map_map.
    clear. induction (tierlist s) as [| t tl IH]; simpl; constructor; auto.
    destruct (String.eqb (Tier.label t) (Tier.label T)) eqn:E; simpl.
    + apply String.eqb_eq in E. rewrite String.eqb_refl. simpl.
      split; [now rewrite E | congruence].
    + rewrite E. auto.
Qed.

(** The drops that find nothing to do. *)
Lemma commit_start (s : State) : commit s (start s) = s.
Proof. destruct s as [tl [a0 e0] dc dt di]. reflexivity. Qed.

Lemma step_drop_tier_no_origin (s : State) (T : Tier.t) (I : ItemRef) :
  draggedCandidateItem s = None -> draggedTierItem s = Some I ->
  findOriginTier heap s I = None ->
  step heap s (DropOnTier T) = s.
Proof.
  intros Hc Ht Hno.
  unfold step, handler, handleDropOnTierList, moveTierItemToAnotherTier.
  rewrite Hc, Ht, Hno. apply commit_start.
Qed.

Lemma step_drop_tier_no_selection (s : State) (T : Tier.t) :
  draggedCandidateItem s = None -> draggedTierItem s = None ->
  step heap s (DropOnTier T) = s.
Proof.
  intros Hc Ht. unfold step, handler, handleDropOnTierList.
  rewrite Hc, Ht. apply commit_start.
Qed.

Lemma step_drop_pool_no_origin (s : State) (I : ItemRef) :
  draggedTierItem s = Some I -> findOriginTier heap s I = None ->
  step heap s DropOnCandidateList = s.
Proof.
  intros Ht Hno. unfold step, handler, handleDropOnCandidateList.
  rewrite Ht, Hno. destruct (draggedCandidateItem s); apply commit_start.
Qed.

Lemma step_drop_pool_no_tier_selection (s : State) :
  draggedTierItem s = None -> step heap s DropOnCandidateList = s.
Proof.
  intro Ht. unfold step, handler, handleDropOnCandidateList.
  rewrite Ht. destruct (draggedCandidateItem s); apply commit_start.
Qed.

Lemma no_label_no_origin (s : State) (I : ItemRef) :
  (forall t j, In t (tierlist s) -> In j (Tier.items t) -> lbl j <> lbl I) ->
  findOriginTier heap s I = None.
Proof.
  intro H. rewrite findOriginTier_holds. now apply findOrigin_none.
Qed.

(** C8: a drop whose precondition is unsatisfied changes nothing of the
    state (pool, tiers, drag selections): a tier-origin drop, on a tier or
    on the pool, when no tier holds an item with the label of the dragged
    item; a drop when no drag selection is set; a pool-origin drop on the
    pool.  The handlers are total functions: nothing is thrown. *)
Theorem unsatisfied_drop_is_noop (s : State) :
  (forall T I,
     draggedCandidateItem s = None -> draggedTierItem s = Some I ->
     (forall t j, In t (tierlist s) -> In j (Tier.items t) ->
                  lbl j <> lbl I) ->
     step heap s (DropOnTier T) = s) /\
  (forall I,
     draggedTierItem s = Some I ->
     (forall t j, In t (tierlist s) -> In j (Tier.items t) ->
                  lbl j <> lbl I) ->
     step heap s DropOnCandidateList = s) /\
  (forall T,
     draggedCandidateItem s = None -> draggedTierItem s = None ->
     step heap s (DropOnTier T) = s) /\
  (draggedCandidateItem s = None -> draggedTierItem s = None ->
   step heap s DropOnCandidateList = s) /\
  (forall I,
     draggedCandidateItem s = Some I -> draggedTierItem s = None ->
     step heap s DropOnCandidateList = s).
Proof.
  split; [| split; [| split; [| split]]].
  - intros T I Hc Ht Hno.
    apply step_drop_tier_no_origin with (I := I); auto.
    now apply no_label_no_origin.
  - intros I Ht Hno.
    apply step_drop_pool_no_origin with (I := I); auto.
    now apply no_label_no_origin.
  - intros T. apply step_drop_tier_no_selection.
  - intros _. apply step_drop_pool_no_tier_selection.
  - intros I _. apply step_drop_pool_no_tier_selection.
Qed.

(** C10: in a move from the pool to a tier the dragged reference is deleted
    from the existing candidate Set object (the object of the state is the
    same one, with one element less): an item of the pool with the label of
    the dragged item but another reference stays in the pool, and the
    dragged item is in the target tier.  Removal from a tier builds a set
    that holds exactly the items of the tier whose label differs from the
    dragged label, each once and in their order, the tier keeping its other
    fields: every item with the dragged label is removed, whatever its
    reference, and every other item is kept. *)
Theorem pool_removal_by_reference_tier_removal_by_label
  (s : State) (T : Tier.t) (I J : ItemRef) :
  draggedCandidateItem s = Some I -> draggedTierItem s = None ->
  In T (tierlist s) ->
  In J (elems (candidatelist s)) -> lbl J = lbl I -> J <> I ->
  let s' := step heap s (DropOnTier T) in
  addr (candidatelist s') = addr (candidatelist s) /\
  elems (candidatelist s') = JSSet.delete (elems (candidatelist s)) I /\
  In J (elems (candidatelist s')) /\
  ~ In I (elems (candidatelist s')) /\
  In I (tierItems (Tier.label T) (tierlist s')) /\
  (NoDup (tierItems (Tier.label T) (tierlist s)) ->
   ~ In I (tierItems (Tier.label T) (tierlist s)) ->
   tierItems (Tier.label T) (tierlist s') =
   tierItems (Tier.label T) (tierlist s) ++ [I]) /\
  (forall t item j, In j (Tier.items (removeItemFromTier heap t item)) <->
                    In j (Tier.items t) /\ lbl j <> lbl item) /\
  (forall t item, NoDup (Tier.items (removeItemFromTier heap t item))) /\
  (forall t item,
     Tier.with_items (removeItemFromTier heap t item) (Tier.items t) = t) /\
  (forall t item, NoDup (Tier.items t) ->
     Tier.items (removeItemFromTier heap t item) =
     filter (fun j => negb (label_eqb (lbl j) (lbl item))) (Tier.items t)) /\
  (forall t, ~ In I (Tier.items (removeItemFromTier heap t I)) /\
             ~ In J (Tier.items (removeItemFromTier heap t I))).
Proof.
  intros Hc Ht HT HJ El Hne s'. subst s'.
  rewrite (step_drop_pool_origin s T I Hc Ht). simpl.
  assert (Hrm : forall t item j,
             In j (Tier.items (removeItemFromTier heap t item)) <->
             In j (Tier.items t) /\ lbl j <> lbl item).
  { intros t item j. simpl.
    rewrite from_In, filter_In, negb_true_iff. split.
    - intros [H E]. split; [assumption |].
      intro E'. apply label_eqb_eq in E'. congruence.
    - intros [H E]. split; [assumption |].
      destruct (label_eqb (lbl j) (lbl item)) eqn:E'; [| reflexivity].
      apply label_eqb_eq in E'. contradiction. }
  split; [reflexivity |]. split; [reflexivity |].
  split; [apply delete_In; now split |].
  split; [rewrite delete_In; intros [_ H]; now apply H |].
  assert (F : exists t0, findTier (Tier.label T) (tierlist s) = Some t0 /\
                         String.eqb (Tier.label t0) (Tier.label T) = true).
  { unfold findTier.
    destruct (find (fun t => String.eqb (Tier.label t) (Tier.label T))
                   (tierlist s)) as [t0 |] eqn:F.
    - exists t0. split; [reflexivity |]. now apply find_some in F.
    - exfalso. pose proof (find_none _ _ F T HT) as H.
      simpl in H. now rewrite String.eqb_refl in H. }
  destruct F as [t0 [F E0]].
  assert (G : tierItems (Tier.label T)
                (addToTier (Tier.label T) I (tierlist s)) =
              JSSet.from (tierItems (Tier.label T) (tierlist s) ++ [I])).
  { unfold tierItems, addToTier.
    rewrite findTier_map by (intro; apply addToTier_step_label).
    rewrite F. simpl. now rewrite E0. }
  rewrite G.
  split; [apply from_In, in_or_app; right; now left |].
  split.
  { intros Hnd Hnot. apply from_fresh, NoDup_app; auto.
    - constructor; [intros [] | constructor].
    - intros a Ha [<- | []]. contradiction. }
  split; [exact Hrm |].
  split; [intros t item; apply from_NoDup |].
  split; [intros t item; now destruct t |].
  split; [intros t item Hnd; now apply removeItemFromTier_items |].
  intro t. split; intro H; apply Hrm in H; now destruct H.
Qed.

(** C7: reset empties the items of every tier and leaves in the pool the
    items of the old pool and of all tiers; on the seed state (tier S
    holding Vivo, the other tiers empty, Item 1, Item 2 and Item 3 in the
    pool) the pool becomes Item 1, Item 2, Item 3, Vivo and all tiers are
    empty. *)
Theorem reset_moves_all_items_to_pool (s : State) :
  (let s' := step heap s ClickReset in
   (forall t', In t' (tierlist s') -> Tier.items t' = []) /\
   map Tier.label (tierlist s') = map Tier.label (tierlist s) /\
   (forall i, In i (elems (candidatelist s')) <->
              In i (elems (candidatelist s)) \/
              exists t, In t (tierlist s) /\ In i (Tier.items t)) /\
   NoDup (elems (candidatelist s'))) /\
  (let r := step seed_heap seed ClickReset in
   elems (candidatelist r) = [Item1; Item2; Item3; Vivo] /\
   map Tier.items (tierlist r) = [[]; []; []; []; []; []; []]).
Proof.
  split; [| split; reflexivity].
  unfold step, handler, resetList, commit, start, seq. simpl.
  rewrite fold_concat_items. simpl.
  split; [| split; [| split]].
  - intros t' H. apply in_map_iff in H. destruct H as [t [<- _]]. reflexivity.
  - rewrite map_map. reflexivity.
  - intro i. rewrite from_In, in_app_iff, in_flat_map. reflexivity.
  - apply from_NoDup.
Qed.

End Drops.


(** ** The invariant of the reachable states *)

Section Reach.

Variable heap : ItemRef -> Item.t.

Local Notation "'lbl'" := (label heap).

Lemma step_drop_both_origin (s : State) (T o : Tier.t) (I J : ItemRef) :
  draggedCandidateItem s = Some I -> draggedTierItem s = Some J ->
  findOriginTier heap s J = Some o ->
  step heap s (DropOnTier T) =
  {| tierlist :=
       addToTier (Tier.label T) J (removeFromTier heap o J (tierlist s));
     candidatelist :=
       {| addr := addr (candidatelist s);
          elems := JSSet.delete (elems (candidatelist s)) I |};
     draggedCandidateItem := None;
     draggedTierItem := None;
     dragImages := Nat.pred (Nat.pred (dragImages s)) |}.
Proof.
  intros H1 H2 H3.
  unfold step, handler, handleDropOnTierList, moveTierItemToAnotherTier, start.
  rewrite H1, H2, H3. reflexivity.
Qed.

Lemma step_drop_both_no_origin (s : State) (T : Tier.t) (I J : ItemRef) :
  draggedCandidateItem s = Some I -> draggedTierItem s = Some J ->
  findOriginTier heap s J = None ->
  step heap s (DropOnTier T) =
  {| tierlist := addToTier (Tier.label T) I (tierlist s);
     candidatelist :=
       {| addr := addr (candidatelist s);
          elems := JSSet.delete (elems (candidatelist s)) I |};
     draggedCandidateItem := None;
     draggedTierItem := Some J;
     dragImages := Nat.pred (dragImages s) |}.
Proof.
  intros H1 H2 H3.
  unfold step, handler, handleDropOnTierList, moveTierItemToAnotherTier, start.
  rewrite H1, H2, H3. reflexivity.
Qed.

Lemma step_drop_on_pool (s : State) (o : Tier.t) (J : ItemRef) :
  draggedTierItem s = Some J -> findOriginTier heap s J = Some o ->
  step heap s DropOnCandidateList =
  {| tierlist := removeFromTier heap o J (tierlist s);
     candidatelist :=
       {| addr := S (addr (candidatelist s));
          elems := JSSet.from (elems (candidatelist s) ++ [J]) |};
     draggedCandidateItem := draggedCandidateItem s;
     draggedTierItem := None;
     dragImages := Nat.pred (dragImages s) |}.
Proof.
  intros H2 H3. unfold step, handler, handleDropOnCandidateList, start.
  rewrite H2, H3. destruct (draggedCandidateItem s); reflexivity.
Qed.

Lemma step_reset (s : State) :
  step heap s ClickReset =
  {| tierlist := map (fun t => Tier.with_items t []) (tierlist s);
     candidatelist :=
       {| addr := S (addr (candidatelist s));
          elems := JSSet.from (all_items s) |};
     draggedCandidateItem := draggedCandidateItem s;
     draggedTierItem := draggedTierItem s;
     dragImages := dragImages s |}.
Proof.
  unfold step, handler, resetList, commit, start, seq, all_items. simpl.
  now rewrite fold_concat_items.
Qed.

(** In a state satisfying the invariant the scan for the origin of the
    dragged tier item finds the tier that holds this very item. *)
Lemma origin_holds_item (s : State) (o : Tier.t) (J : ItemRef) :
  Inv heap s -> draggedTierItem s = Some J ->
  findOriginTier heap s J = Some o ->
  In o (tierlist s) /\ In J (Tier.items o).
Proof.
  intros [[Hnd _] [_ Hdt]] Ht Ho.
  rewrite findOriginTier_holds in Ho. apply findOrigin_some in Ho.
  destruct Ho as [Hin [j [Hj E]]]. split; [assumption |].
  assert (j = J); [| now subst].
  apply (NoDup_map_eq lbl (all_items s)); auto.
  unfold all_items. apply in_or_app. right. apply in_flat_map. now exists o.
Qed.

Lemma empty_tiers_items (tl : list Tier.t) :
  flat_map Tier.items (map (fun t => Tier.with_items t []) tl) = [].
Proof. induction tl as [| t tl IH]; simpl; auto. Qed.

(** Every event keeps the items of the state, up to their order, except the
    one of [lost]; it keeps the labels of the tiers. *)
Lemma step_items (s : State) (e : Event) :
  Inv heap s -> enabled s e ->
  Permutation (lost heap s e ++ all_items (step heap s e)) (all_items s) /\
  map Tier.label (tierlist (step heap s e)) = map Tier.label (tierlist s).
Proof.
  intros HInv He. pose proof HInv as [Hwf [Hdc Hdt]].
  pose proof (wf_refs heap s Hwf) as Hnd. unfold all_items in Hnd.
  pose proof (wf_tiers heap s Hwf) as Hndt.
  destruct Hwf as [_ Hlab].
  destruct e as [i | | i | | T | |]; simpl in He;
    try (unfold lost, step, handler, all_items; simpl;
         destruct (draggedCandidateItem s), (draggedTierItem s);
         split; reflexivity).
  - (* drop on a tier *)
    unfold lost.
    destruct (draggedCandidateItem s) as [I |] eqn:Ec;
      destruct (draggedTierItem s) as [J |] eqn:Et.
    + pose proof (Hdc I eq_refl) as HI.
      pose proof (delete_Permutation _ I (NoDup_app_remove_r _ _ Hnd) HI) as P1.
      destruct (findOriginTier heap s J) as [o |] eqn:Eo.
      * destruct (origin_holds_item s o J HInv Et Eo) as [Ho HJ].
        rewrite (step_drop_both_origin s T o I J Ec Et Eo).
        unfold all_items. cbn [tierlist candidatelist elems]. split.
        -- rewrite <- (move_Permutation heap (tierlist s) T o J Hlab Hndt He Ho HJ).
           rewrite P1 at 2. reflexivity.
        -- now rewrite addToTier_labels, removeFromTier_labels.
      * rewrite (step_drop_both_no_origin s T I J Ec Et Eo).
        unfold all_items. cbn [tierlist candidatelist elems]. split.
        -- rewrite (addToTier_Permutation (Tier.label T) I _ Hlab
                      (in_map Tier.label _ _ He)
                      (NoDup_app_remove_l _ _ Hnd)
                      (wf_pool_not_in_tier heap s I (proj1 HInv) HI)).
           rewrite P1 at 2. simpl. symmetry. apply Permutation_middle.
        -- apply addToTier_labels.
    + pose proof (Hdc I eq_refl) as HI.
      pose proof (delete_Permutation _ I (NoDup_app_remove_r _ _ Hnd) HI) as P1.
      rewrite (step_drop_pool_origin heap s T I Ec Et).
      unfold all_items. cbn [tierlist candidatelist elems]. split.
      * rewrite (addToTier_Permutation (Tier.label T) I _ Hlab
                   (in_map Tier.label _ _ He)
                   (NoDup_app_remove_l _ _ Hnd)
                   (wf_pool_not_in_tier heap s I (proj1 HInv) HI)).
        rewrite P1 at 2. simpl. symmetry. apply Permutation_middle.
      * apply addToTier_labels.
    + destruct (findOriginTier heap s J) as [o |] eqn:Eo.
      * destruct (origin_holds_item s o J HInv Et Eo) as [Ho HJ].
        rewrite (step_drop_tier_origin heap s T o J Ec Et Eo).
        unfold all_items. cbn [tierlist candidatelist elems]. split.
        -- now rewrite <- (move_Permutation heap (tierlist s) T o J
                             Hlab Hndt He Ho HJ).
        -- now rewrite addToTier_labels, removeFromTier_labels.
      * rewrite (step_drop_tier_no_origin heap s T J Ec Et Eo).
        split; reflexivity.
    + rewrite (step_drop_tier_no_selection heap s T Ec Et). split; reflexivity.
  - (* drop on the candidate list *)
    assert (L : lost heap s DropOnCandidateList = []).
    { unfold lost. now destruct (draggedCandidateItem s), (draggedTierItem s). }
    rewrite L. cbn [app].
    destruct (draggedTierItem s) as [J |] eqn:Et.
    + destruct (findOriginTier heap s J) as [o |] eqn:Eo.
      * destruct (origin_holds_item s o J HInv Et Eo) as [Ho HJ].
        rewrite (step_drop_on_pool s o J Et Eo).
        unfold all_items. cbn [tierlist candidatelist elems].
        pose proof (removeFromTier_Permutation heap o J (tierlist s)
                      Hlab Ho HJ Hndt) as P.
        assert (N : NoDup (elems (candidatelist s) ++ [J])).
        { apply NoDup_app; [now apply NoDup_app_remove_r in Hnd | |].
          - constructor; [intros [] | constructor].
          - intros a Ha [<- | []].
            apply (NoDup_app_disjoint _ _ J Hnd Ha).
            apply in_flat_map. now exists o. }
        rewrite (from_fresh _ N), removeFromTier_labels. split; auto.
        rewrite <- app_assoc. simpl. now rewrite <- P.
      * rewrite (step_drop_pool_no_origin heap s J Et Eo). split; reflexivity.
    + rewrite (step_drop_pool_no_tier_selection heap s Et). split; reflexivity.
  - (* reset *)
    assert (L : lost heap s ClickReset = []).
    { unfold lost. now destruct (draggedCandidateItem s), (draggedTierItem s). }
    rewrite L, step_reset. unfold all_items at 1. simpl.
    rewrite empty_tiers_items, app_nil_r, map_map. simpl. split; auto.
    unfold all_items. now rewrite from_fresh.
Qed.

(** Every event leaves a pool-origin selection in the pool and a
    tier-origin selection among the items of the state. *)
Lemma step_selections (s : State) (e : Event) :
  Inv heap s -> enabled s e ->
  (forall i, draggedCandidateItem (step heap s e) = Some i ->
             In i (elems (candidatelist (step heap s e)))) /\
  (forall j, draggedTierItem (step heap s e) = Some j ->
             lost heap s e = [] /\ In j (all_items s)).
Proof.
  intros HInv He. pose proof HInv as [Hwf [Hdc Hdt]].
  assert (L : forall e', (forall T, e' <> DropOnTier T) -> lost heap s e' = []).
  { intros e' H. unfold lost.
    destruct e'; try reflexivity. now contradiction (H tier). }
  destruct e as [i | | i | | T | |]; simpl in He.
  - split; [intros i' H; injection H as <-; exact He |].
    intros j H. split; [now apply L | apply Hdt, H].
  - split; [intros i' H; discriminate H |].
    intros j H. split; [now apply L | apply Hdt, H].
  - split; [intros i' H; apply Hdc, H |].
    intros j H. split; [now apply L |]. injection H as <-.
    destruct He as [t [Ht Hi]]. unfold all_items.
    apply in_or_app. right. apply in_flat_map. now exists t.
  - split; [intros i' H; apply Hdc, H |]. intros j H. discriminate H.
  - unfold lost.
    destruct (draggedCandidateItem s) as [I |] eqn:Ec;
      destruct (draggedTierItem s) as [J |] eqn:Et.
    + destruct (findOriginTier heap s J) as [o |] eqn:Eo.
      * rewrite (step_drop_both_origin s T o I J Ec Et Eo).
        split; intros x H; discriminate H.
      * rewrite (step_drop_both_no_origin s T I J Ec Et Eo).
        split; [intros x H; discriminate H |].
        intros j H. split; [reflexivity | apply Hdt, H].
    + rewrite (step_drop_pool_origin heap s T I Ec Et).
      split; intros x H; discriminate H.
    + destruct (findOriginTier heap s J) as [o |] eqn:Eo.
      * rewrite (step_drop_tier_origin heap s T o J Ec Et Eo).
        split; intros x H; discriminate H.
      * rewrite (step_drop_tier_no_origin heap s T J Ec Et Eo).
        split; [intros x H; congruence |].
        intros j H. split; [reflexivity | apply Hdt; congruence].
    + rewrite (step_drop_tier_no_selection heap s T Ec Et).
      split; intros x H; congruence.
  - destruct (draggedTierItem s) as [J |] eqn:Et.
    + destruct (findOriginTier heap s J) as [o |] eqn:Eo.
      * rewrite (step_drop_on_pool s o J Et Eo).
        cbn [draggedCandidateItem draggedTierItem candidatelist elems].
        split; [| intros x H; discriminate H].
        intros x H. apply from_In, in_or_app. left. apply Hdc, H.
      * rewrite (step_drop_pool_no_origin heap s J Et Eo).
        split; [exact Hdc |].
        intros j H. split; [now apply L | apply Hdt; congruence].
    + rewrite (step_drop_pool_no_tier_selection heap s Et).
      split; [exact Hdc |]. intros j H. congruence.
  - rewrite step_reset.
    cbn [draggedCandidateItem draggedTierItem candidatelist elems].
    split.
    + intros x H. apply from_In. unfold all_items.
      apply in_or_app. left. apply Hdc, H.
    + intros j H. split; [now apply L | apply Hdt, H].
Qed.

(** The invariant is kept by every event the page can deliver. *)
Lemma Inv_step (s : State) (e : Event) :
  Inv heap s -> enabled s e -> Inv heap (step heap s e).
Proof.
  intros HInv He.
  destruct (step_items s e HInv He) as [P Hl].
  destruct (step_selections s e HInv He) as [Hc Ht].
  destruct HInv as [[Hnd Hlab] _].
  split; [split |]; [| | split].
  - apply (Permutation_map lbl) in P. symmetry in P.
    apply (Permutation_NoDup P) in Hnd. rewrite map_app in Hnd.
    now apply NoDup_app_remove_l in Hnd.
  - now rewrite Hl.
  - exact Hc.
  - intros j H. destruct (Ht j H) as [L Hj]. rewrite L in P. simpl in P.
    symmetry in P. exact (Permutation_in j P Hj).
Qed.

Lemma reachable_Inv (s0 s : State) :
  Inv heap s0 -> reachable heap s0 s -> Inv heap s.
Proof.
  intros H0 R. induction R as [| s e R IH He]; [assumption |].
  now apply Inv_step.
Qed.





(** A drop with a single origin, and every other event, loses no item. *)
Lemma step_keeps_items (s : State) (e : Event) :
  Inv heap s -> enabled s e -> single_origin s e ->
  Permutation (all_items (step heap s e)) (all_items s).
Proof.
  intros HInv He H. destruct (step_items s e HInv He) as [P _].
  assert (L : lost heap s e = []).
  { unfold lost. destruct e; try reflexivity. simpl in H.
    destruct H as [-> | ->]; [reflexivity |].
    now destruct (draggedCandidateItem s). }
  now rewrite L in P.
Qed.

Lemma single_origin_reachable (s0 s : State) :
  reachable_single_origin heap s0 s -> reachable heap s0 s.
Proof.
  intro R. induction R as [| s e R IH He _]; [apply reachable_init |].
  now apply reachable_step.
Qed.

(** Along such runs the items of the state are those of the first state,
    up to their order: no item is lost and none is added. *)
Lemma single_origin_keeps_items (s0 s : State) :
  Inv heap s0 -> reachable_single_origin heap s0 s ->
  Permutation (all_items s) (all_items s0).
Proof.
  intros H0 R. induction R as [| s e R IH He O]; [reflexivity |].
  rewrite <- IH. apply step_keeps_items; auto.
  apply (reachable_Inv s0 s H0), single_origin_reachable, R.
Qed.

(** No event brings an item into the state. *)
Lemma reachable_items (s0 s : State) :
  Inv heap s0 -> reachable heap s0 s -> incl (all_items s) (all_items s0).
Proof.
  intros H0 R. induction R as [| s e R IH He]; [apply incl_refl |].
  destruct (step_items s e (reachable_Inv s0 s H0 R) He) as [P _].
  intros x Hx. apply IH. apply (Permutation_in x P).
  apply in_or_app. now right.
Qed.



End Reach.
(** ** Instances on the seed state *)

Ltac nodup_closed :=
  repeat (apply NoDup_cons; [simpl; intuition discriminate |]);
  apply NoDup_nil.

(** The seed state with Item 1 being dragged from the pool. *)
Lemma drop_pool_item_on_tier_witness :
  let s := step seed_heap seed (DragStartCandidate Item1) in
  let s' := step seed_heap s (DropOnTier tier_A) in
  ~ In Item1 (elems (candidatelist s')) /\
  In Item1 (tierItems (Tier.label tier_A) (tierlist s')) /\
  (forall t, In t (tierlist s') -> Tier.label t <> Tier.label tier_A ->
             ~ In Item1 (Tier.items t)) /\
  totalItems s' = totalItems s /\
  draggedCandidateItem s' = None.
Proof.
  apply (drop_pool_item_on_tier seed_heap
           (step seed_heap seed (DragStartCandidate Item1)) tier_A Item1).
  - split; vm_compute; nodup_closed.
  - vm_compute. auto.
  - vm_compute. auto.
  - reflexivity.
  - reflexivity.
Defined.


Lemma seed_Inv : Inv seed_heap seed.
Proof.
  split; [split; vm_compute; nodup_closed |].
  split; intros i H; discriminate H.
Qed.




(** What the invariant leaves open: an item can leave the state.  When a
    drag from a tier begins while a drag from the pool has not ended, the
    next drop on a tier deletes Item 1 from the pool and keeps the tier
    list built by [moveTierItemToAnotherTier] from the tier list of the
    closure, in which Item 1 is in no tier.  With one origin per drop this
    cannot happen, see [single_origin_keeps_items]. *)
Remark drop_with_both_selections :
  let s := step seed_heap
             (step seed_heap (step seed_heap seed (DragStartCandidate Item1))
                   (DragStartTier Vivo))
             (DropOnTier tier_A) in
  reachable seed_heap seed s /\
  all_items s = [Item2; Item3; Vivo] /\
  tierItems "A" (tierlist s) = [Vivo].
Proof.
  cbv zeta. split; [| split; reflexivity].
  apply reachable_step; [apply reachable_step; [apply reachable_step |] |].
  - apply reachable_init.
  - vm_compute. auto.
  - exists tier_S. split; vm_compute; auto.
  - vm_compute. auto.
Qed.

(** Vivo dragged from tier S to tier A. *)
Lemma drop_tier_item_on_other_tier_witness :
  let s := step seed_heap seed (DragStartTier Vivo) in
  let s' := step seed_heap s (DropOnTier tier_A) in
  ~ In Vivo (tierItems (Tier.label tier_S) (tierlist s')) /\
  In Vivo (tierItems (Tier.label tier_A) (tierlist s')) /\
  totalItems s' = totalItems s /\
  draggedTierItem s' = None.
Proof.
  apply (drop_tier_item_on_other_tier seed_heap
           (step seed_heap seed (DragStartTier Vivo)) tier_S tier_A Vivo).
  - split; vm_compute; nodup_closed.
  - vm_compute. auto.
  - vm_compute. auto.
  - discriminate.
  - vm_compute. auto.
  - reflexivity.
  - reflexivity.
Defined.

(** Vivo dragged from tier S and dropped on tier S. *)
Lemma drop_tier_item_on_same_tier_witness :
  let s := step seed_heap seed (DragStartTier Vivo) in
  let s' := step seed_heap s (DropOnTier tier_S) in
  (exists T', findTier (Tier.label tier_S) (tierlist s') = Some T' /\
              Permutation (Tier.items T') (Tier.items tier_S) /\
              Tier.with_items T' (Tier.items tier_S) = tier_S) /\
  Forall2 (fun t t' => Tier.label t' = Tier.label t /\
                       (Tier.label t <> Tier.label tier_S -> t' = t))
          (tierlist s) (tierlist s') /\
  candidatelist s' = candidatelist s.
Proof.
  apply (drop_tier_item_on_same_tier seed_heap
           (step seed_heap seed (DragStartTier Vivo)) tier_S Vivo).
  - split; vm_compute; nodup_closed.
  - vm_compute. auto.
  - vm_compute. auto.
  - reflexivity.
  - reflexivity.
Defined.

(** Drops on the seed state, a drop on the pool of an item of the pool, and
    drops of an item that a reset has moved to the pool. *)
Lemma unsatisfied_drop_is_noop_witness :
  (step seed_heap seed (DropOnTier tier_A) = seed /\
   step seed_heap seed DropOnCandidateList = seed) /\
  (let s := step seed_heap seed (DragStartCandidate Item1) in
   step seed_heap s DropOnCandidateList = s) /\
  (let s := step seed_heap (step seed_heap seed (DragStartTier Vivo))
                 ClickReset in
   step seed_heap s (DropOnTier tier_A) = s /\
   step seed_heap s DropOnCandidateList = s).
Proof.
  assert (E : forall (tl : list Tier.t) (t : Tier.t) (j : ItemRef) (l : option string),
             Forall (fun u => Tier.items u = []) tl ->
             In t tl -> In j (Tier.items t) -> label seed_heap j <> l).
  { intros tl t j l F Ht Hj. rewrite Forall_forall in F.
    rewrite (F t Ht) in Hj. destruct Hj. }
  split; [split | split].
  - apply (proj1 (proj2 (proj2 (unsatisfied_drop_is_noop seed_heap seed))));
      reflexivity.
  - apply (proj1 (proj2 (proj2 (proj2
             (unsatisfied_drop_is_noop seed_heap seed))))); reflexivity.
  - apply (proj2 (proj2 (proj2 (proj2
             (unsatisfied_drop_is_noop seed_heap
                (step seed_heap seed (DragStartCandidate Item1))))))
             Item1); reflexivity.
  - split.
    + apply (proj1 (unsatisfied_drop_is_noop seed_heap
                      (step seed_heap (step seed_heap seed (DragStartTier Vivo))
                            ClickReset))
               tier_A Vivo); try reflexivity.
      intros t j. apply E. vm_compute. repeat constructor.
    + apply (proj1 (proj2 (unsatisfied_drop_is_noop seed_heap
                      (step seed_heap (step seed_heap seed (DragStartTier Vivo))
                            ClickReset)))
               Vivo); try reflexivity.
      intros t j. apply E. vm_compute. repeat constructor.
Defined.

(** The pool holds Item 1 and a second object with the same label; and a
    tier that holds both of them between Item 2 and Item 3 loses both and
    keeps the two others. *)
Lemma pool_removal_by_reference_tier_removal_by_label_witness :
  let s' := step twin_heap twin_state (DropOnTier tier_A) in
  let t := Tier.with_items tier_B [Item2; Item1; Item1_twin; Item3] in
  (addr (candidatelist s') = addr (candidatelist twin_state) /\
   elems (candidatelist s') = [Item2; Item3; Item1_twin] /\
   In Item1_twin (elems (candidatelist s')) /\
   In Item1 (tierItems "A" (tierlist s'))) /\
  (Tier.items (removeItemFromTier twin_heap t Item1) = [Item2; Item3] /\
   In Item2 (Tier.items (removeItemFromTier twin_heap t Item1)) /\
   In Item3 (Tier.items (removeItemFromTier twin_heap t Item1)) /\
   ~ In Item1 (Tier.items (removeItemFromTier twin_heap t Item1)) /\
   ~ In Item1_twin (Tier.items (removeItemFromTier twin_heap t Item1))).
Proof.
  destruct (pool_removal_by_reference_tier_removal_by_label
              twin_heap twin_state tier_A Item1 Item1_twin)
    as (H1 & H2 & H3 & _ & H5 & _ & H7 & _ & _ & H10 & H11).
  - reflexivity.
  - reflexivity.
  - vm_compute. auto.
  - vm_compute. auto.
  - reflexivity.
  - discriminate.
  - split; [repeat split; assumption |].
    split; [| split; [| split; [| split]]].
    + apply (H10 (Tier.with_items tier_B [Item2; Item1; Item1_twin; Item3])
                 Item1).
      vm_compute. nodup_closed.
    + apply H7. split; [vm_compute; auto | discriminate].
    + apply H7. split; [vm_compute; auto | discriminate].
    + apply (H11 (Tier.with_items tier_B [Item2; Item1; Item1_twin; Item3])).
    + apply (H11 (Tier.with_items tier_B [Item2; Item1; Item1_twin; Item3])).
Defined.

(** ** The drag-enter counter *)

Section Counter.

Import Droppable.

Local Open Scope Z_scope.

Lemma run_cons (c : Z) (e : DomEvent) (evs : list DomEvent) :
  counter_after c (e :: evs) =
  counter_after (next_counter c (handle c e)) evs /\
  trace c (e :: evs) =
  calls (handle c e) :: trace (next_counter c (handle c e)) evs.
Proof. split; reflexivity. Qed.

Lemma counter_after_app (c : Z) (l1 l2 : list DomEvent) :
  counter_after c (l1 ++ l2) = counter_after (counter_after c l1) l2.
Proof.
  revert c. induction l1 as [| e l1 IH]; intro c; [reflexivity |].
  simpl app. rewrite !(proj1 (run_cons _ _ _)). apply IH.
Qed.

Lemma trace_app (c : Z) (l1 l2 : list DomEvent) :
  trace c (l1 ++ l2) = (trace c l1 ++ trace (counter_after c l1) l2)%list.
Proof.
  revert c. induction l1 as [| e l1 IH]; intro c; [reflexivity |].
  simpl app. rewrite !(proj2 (run_cons _ _ _)), (proj1 (run_cons _ _ _)).
  simpl. now rewrite IH.
Qed.

Lemma trace_length (c : Z) (evs : list DomEvent) :
  length (trace c evs) = length evs.
Proof.
  revert c. induction evs as [| e evs IH]; intro c; [reflexivity |].
  rewrite (proj2 (run_cons _ _ _)). simpl. now rewrite IH.
Qed.

(** What the event number [k] does, in terms of the counter it finds. *)
Lemma event_at (c : Z) (evs : list DomEvent) (k : nat) (e : DomEvent) :
  nth_error evs k = Some e ->
  calls_at c evs k = calls (handle (counter_before c evs k) e) /\
  counter_before c evs (S k) =
  next_counter (counter_before c evs k) (handle (counter_before c evs k) e).
Proof.
  unfold calls_at, counter_before.
  revert c k. induction evs as [| e0 evs IH]; intros c k H.
  - now destruct k.
  - destruct k as [| k].
    + injection H as ->. split; reflexivity.
    + simpl in H. specialize (IH (next_counter c (handle c e0)) k H).
      rewrite (proj2 (run_cons _ _ _)).
      change (firstn (S (S k)) (e0 :: evs)) with (e0 :: firstn (S k) evs).
      change (firstn (S k) (e0 :: evs)) with (e0 :: firstn k evs).
      rewrite !(proj1 (run_cons _ _ _)). exact IH.
Qed.

Lemma handle_leave (c : Z) :
  next_counter c (handle c DragLeave) = c - 1 /\
  calls (handle c DragLeave) = if c - 1 <=? 0 then [onDragLeave] else [].
Proof.
  unfold handle, next_counter, calls.
  destruct (c - 1 <=? 0); split; reflexivity.
Qed.

Lemma counter_enter_leave (c : Z) (evs : list DomEvent) :
  Forall enter_or_leave evs -> counter_after c evs = c + net evs.
Proof.
  revert c. induction evs as [| e evs IH]; intros c H.
  - unfold counter_after. simpl. lia.
  - inversion H as [| ? ? He Hr]; subst.
    rewrite (proj1 (run_cons _ _ _)), (IH _ Hr).
    destruct He as [-> | ->]; [| rewrite (proj1 (handle_leave c))];
      unfold net; cbn [handle next_counter fold_left fold_right];
      fold (net evs); lia.
Qed.

(** C4, as the code has it: in every sequence of enter and leave events
    each leave decrements the counter and invokes the owner's leave
    callback exactly when the counter it leaves behind is 0 or less, so
    also when the counter was 0 or less already; an enter invokes nothing;
    the counter ends at its first value plus the enters minus the leaves
    and so may be negative. *)
Theorem leave_callback_when_counter_not_positive
  (c : Z) (evs : list DomEvent) :
  Forall enter_or_leave evs ->
  (forall k, nth_error evs k = Some DragLeave ->
     counter_before c evs (S k) = counter_before c evs k - 1 /\
     calls_at c evs k =
       if counter_before c evs (S k) <=? 0 then [onDragLeave] else []) /\
  (forall k, nth_error evs k = Some DragEnter ->
     counter_before c evs (S k) = counter_before c evs k + 1 /\
     calls_at c evs k = []) /\
  (forall k, counter_before c evs k = c + net (firstn k evs)).
Proof.
  intro H. split; [| split].
  - intros k Hk. destruct (event_at c evs k _ Hk) as [E1 E2].
    rewrite E1, E2, (proj1 (handle_leave _)), (proj2 (handle_leave _)).
    split; reflexivity.
  - intros k Hk. destruct (event_at c evs k _ Hk) as [E1 E2].
    rewrite E1, E2. simpl. split; reflexivity.
  - intro k. unfold counter_before. apply counter_enter_leave.
    rewrite <- (firstn_skipn k evs) in H. now apply Forall_app in H.
Qed.

Lemma leave_callback_when_counter_not_positive_witness :
  calls_at 0 [DragEnter; DragLeave; DragLeave] 2 = [onDragLeave] /\
  counter_before 0 [DragEnter; DragLeave; DragLeave] 3 = -1.
Proof.
  assert (F : Forall enter_or_leave [DragEnter; DragLeave; DragLeave]).
  { repeat (apply Forall_cons; [unfold enter_or_leave; auto |]).
    apply Forall_nil. }
  destruct (leave_callback_when_counter_not_positive 0 _ F) as (L & _ & N).
  split.
  - exact (proj2 (L 2%nat eq_refl)).
  - exact (N 3%nat).
Defined.

(** C4 as stated fails: after enter, leave the counter is 0, and a further
    leave invokes the callback again. *)
Lemma leave_callback_fires_below_zero :
  ~ fires_only_on_crossing 0 [DragEnter; DragLeave; DragLeave].
Proof.
  intro H. specialize (H 2%nat). vm_compute in H.
  assert (A : onDragLeave = onDragLeave \/ False) by (left; reflexivity).
  specialize (H A). discriminate H.
Qed.

(** C5: from counter 0, the events enter, enter, leave, leave invoke the
    leave callback once, at the second leave; the events enter, leave,
    enter, leave invoke it twice. *)
Theorem counter_scenarios :
  trace 0 [DragEnter; DragEnter; DragLeave; DragLeave] =
    [[]; []; []; [onDragLeave]] /\
  leave_calls (trace 0 [DragEnter; DragEnter; DragLeave; DragLeave]) = 1%nat /\
  trace 0 [DragEnter; DragLeave; DragEnter; DragLeave] =
    [[]; [onDragLeave]; []; [onDragLeave]] /\
  leave_calls (trace 0 [DragEnter; DragLeave; DragEnter; DragLeave]) = 2%nat.
Proof. repeat split; reflexivity. Qed.

(** C9: whatever the counter is, a drop first sets it to 0 and then invokes
    the owner's drop callback: after any events followed by a drop the
    counter is 0 and the drop has invoked [onDrop] and nothing else. *)
Theorem drop_resets_counter (c : Z) (evs : list DomEvent) :
  handle c Drop = [setDragEnterCounter 0; call onDrop] /\
  next_counter c (handle c Drop) = 0 /\
  counter_after c (evs ++ [Drop]) = 0 /\
  calls_at c (evs ++ [Drop]) (length evs) = [onDrop].
Proof.
  split; [reflexivity |]. split; [reflexivity |]. split.
  - now rewrite counter_after_app.
  - unfold calls_at. rewrite trace_app, app_nth2; rewrite trace_length; auto.
    now rewrite Nat.sub_diag.
Qed.

End Counter.

(** * More of the page *)

(** ** The helpers on one tier *)

Section TierHelpers.

Variable heap : ItemRef -> Item.t.

Local Notation "'lbl'" := (label heap).

Lemma with_items_same (t : Tier.t) : Tier.with_items t (Tier.items t) = t.
Proof. now destruct t. Qed.

Lemma find_first {A : Type} (f : A -> bool) (l : list A) (o : A) :
  find f l = Some o <->
  exists l1 l2, l = l1 ++ o :: l2 /\ f o = true /\
                forall t, In t l1 -> f t = false.
Proof.
  split.
  - induction l as [| a l IH]; intro H; [discriminate H |].
    simpl in H. destruct (f a) eqn:E.
    + injection H as <-. exists [], l. repeat split; auto.
      intros t [].
    + destruct (IH H) as (l1 & l2 & -> & Ho & Hb).
      exists (a :: l1), l2. repeat split; auto.
      intros t [<- | Ht]; auto.
  - intros (l1 & l2 & -> & Ho & Hb).
    induction l1 as [| a l1 IH]; simpl.
    + now rewrite Ho.
    + rewrite (Hb a (or_introl eq_refl)). apply IH.
      intros t Ht. apply Hb. now right.
Qed.

Lemma holds_false (item : ItemRef) (t : Tier.t) :
  holdsLabel heap item t = false <->
  forall j, In j (Tier.items t) -> lbl j <> lbl item.
Proof.
  split.
  - intros H j Hj E.
    assert (holdsLabel heap item t = true)
      by (apply holds_true; now exists j).
    congruence.
  - intro H. destruct (holdsLabel heap item t) eqn:E; [| reflexivity].
    apply holds_true in E. destruct E as [j [Hj E]]. now destruct (H j Hj).
Qed.

(** X11: the scan for the origin of a dragged item returns the first tier,
    in the order of the tier list, that holds an item with the label of the
    dragged item: every tier in front of it holds no such item. *)
Theorem findOriginTier_first_match (s : State) (item : ItemRef) (o : Tier.t) :
  findOriginTier heap s item = Some o <->
  exists l1 l2,
    tierlist s = l1 ++ o :: l2 /\
    (exists j, In j (Tier.items o) /\ lbl j = lbl item) /\
    (forall t j, In t l1 -> In j (Tier.items t) -> lbl j <> lbl item).
Proof.
  rewrite findOriginTier_holds, find_first. split.
  - intros (l1 & l2 & E & Ho & Hb). exists l1, l2.
    split; [exact E |]. split; [now apply holds_true |].
    intros t j Ht. now apply holds_false, Hb.
  - intros (l1 & l2 & E & Ho & Hb). exists l1, l2.
    split; [exact E |]. split; [now apply holds_true |].
    intros t Ht. apply holds_false. intros j. now apply Hb.
Qed.

Lemma addItemToTier_present (t : Tier.t) (i : ItemRef) :
  NoDup (Tier.items t) -> In i (Tier.items t) -> addItemToTier t i = t.
Proof.
  intros Hnd Hi. unfold addItemToTier, JSSet.from.
  rewrite fold_left_app. fold (JSSet.from (Tier.items t)).
  rewrite (from_fresh _ Hnd). simpl. unfold JSSet.add.
  rewrite (proj2 (has_In _ _) Hi). apply with_items_same.
Qed.

Lemma addItemToTier_fresh (t : Tier.t) (i : ItemRef) :
  NoDup (Tier.items t) -> ~ In i (Tier.items t) ->
  Tier.items (addItemToTier t i) = Tier.items t ++ [i].
Proof.
  intros Hnd Hi. simpl. apply from_fresh, NoDup_app; auto.
  - constructor; [intros [] | constructor].
  - intros a Ha [<- | []]. contradiction.
Qed.

(** X12: [addItemToTier] compares references, not labels: adding an item
    that the tier holds returns the tier as it is, and adding any other
    reference puts it last, whatever its label; the label, order and
    colours of the tier are kept. *)
Theorem addItemToTier_by_reference (t : Tier.t) (i : ItemRef) :
  NoDup (Tier.items t) ->
  metadata (addItemToTier t i) = metadata t /\
  (In i (Tier.items t) -> addItemToTier t i = t) /\
  (~ In i (Tier.items t) ->
   Tier.items (addItemToTier t i) = Tier.items t ++ [i]).
Proof.
  intro Hnd. split; [reflexivity |]. split.
  - now apply addItemToTier_present.
  - now apply addItemToTier_fresh.
Qed.

Lemma remove_added (t : Tier.t) (i : ItemRef) :
  NoDup (Tier.items t) ->
  (forall j, In j (Tier.items t) -> lbl j <> lbl i) ->
  removeItemFromTier heap (addItemToTier t i) i = t.
Proof.
  intros Hnd Hl.
  assert (Hi : ~ In i (Tier.items t)) by (intro H; now apply (Hl i H)).
  unfold removeItemFromTier.
  rewrite (addItemToTier_fresh t i Hnd Hi).
  rewrite filter_app. simpl. rewrite label_eqb_refl. simpl.
  rewrite app_nil_r, filter_label_absent.
  - rewrite (from_fresh _ Hnd). now destruct t.
  - intro H. apply in_map_iff in H. destruct H as [j [E Hj]].
    now apply (Hl j Hj).
Qed.

(** What [removeItemFromTier] keeps: removing a label that the tier does not
    hold returns the tier, and removing twice is removing once. *)
Lemma remove_absent (t : Tier.t) (i : ItemRef) :
  NoDup (Tier.items t) ->
  (forall j, In j (Tier.items t) -> lbl j <> lbl i) ->
  removeItemFromTier heap t i = t.
Proof.
  intros Hnd Hl. unfold removeItemFromTier.
  rewrite filter_label_absent.
  - rewrite (from_fresh _ Hnd). apply with_items_same.
  - intro H. apply in_map_iff in H. destruct H as [j [E Hj]].
    now apply (Hl j Hj).
Qed.

(** X13: removing from a tier the item that was just added to it gives the
    tier back, when no item of the tier has the label of the added item;
    removing a label that the tier does not hold gives the tier back, and
    removing a label twice is removing it once. *)
Theorem remove_added_item (t : Tier.t) (i : ItemRef) :
  NoDup (Tier.items t) ->
  (forall j, In j (Tier.items t) -> lbl j <> lbl i) ->
  removeItemFromTier heap (addItemToTier t i) i = t /\
  removeItemFromTier heap t i = t /\
  (forall u, removeItemFromTier heap (removeItemFromTier heap u i) i =
             removeItemFromTier heap u i).
Proof.
  intros Hnd Hl. split; [now apply remove_added |].
  split; [now apply remove_absent |].
  intro u. apply remove_absent.
  - apply from_NoDup.
  - intros j Hj. simpl in Hj. rewrite from_In, filter_In, negb_true_iff in Hj.
    destruct Hj as [_ Hj]. intro E. apply label_eqb_eq in E. congruence.
Qed.

End TierHelpers.

(** ** Moves to the pool, round trips and reset *)

Section Moves.

Variable heap : ItemRef -> Item.t.

Local Notation "'lbl'" := (label heap).

Lemma wf_tier_items (s : State) (t : Tier.t) :
  wf heap s -> In t (tierlist s) -> NoDup (map lbl (Tier.items t)).
Proof.
  intros Hwf Ht. apply wf_tiers in Hwf.
  induction (tierlist s) as [| a tl IH]; [destruct Ht |].
  simpl in Hwf. rewrite map_app in Hwf. destruct Ht as [-> | Ht].
  - now apply NoDup_app_remove_r in Hwf.
  - apply IH; auto. now apply NoDup_app_remove_l in Hwf.
Qed.

Lemma wf_tier_not_in_pool (s : State) (t : Tier.t) (i : ItemRef) :
  wf heap s -> In t (tierlist s) -> In i (Tier.items t) ->
  ~ In i (elems (candidatelist s)).
Proof.
  intros Hwf Ht Hi Hp.
  apply (wf_pool_not_in_tier heap s i Hwf Hp), in_flat_map. now exists t.
Qed.

(** With unique labels, filtering by label deletes one reference. *)
Lemma filter_label_delete (i : ItemRef) (l : list ItemRef) :
  NoDup (map lbl l) -> In i l ->
  filter (fun j => negb (label_eqb (lbl j) (lbl i))) l = JSSet.delete l i.
Proof.
  intros Hnd Hi. unfold JSSet.delete. apply filter_ext_in. intros j Hj.
  f_equal. destruct (Nat.eqb i j) eqn:E.
  - apply Nat.eqb_eq in E. subst j. apply label_eqb_refl.
  - apply Nat.eqb_neq in E. destruct (label_eqb (lbl j) (lbl i)) eqn:El; auto.
    apply label_eqb_eq in El. exfalso. apply E.
    exact (NoDup_map_eq lbl l i j Hnd Hi Hj (eq_sym El)).
Qed.

Lemma removeFromTier_elsewhere (o : Tier.t) (i : ItemRef) (tl : list Tier.t) :
  Forall2 (fun t t' => Tier.label t' = Tier.label t /\
                       (Tier.label t <> Tier.label o -> t' = t))
          tl (removeFromTier heap o i tl).
Proof.
  induction tl as [| t tl IH]; simpl; constructor; auto.
  destruct (String.eqb (Tier.label t) (Tier.label o)) eqn:E.
  - apply String.eqb_eq in E. split; [now rewrite E | congruence].
  - auto.
Qed.

Lemma removeFromTier_found (o : Tier.t) (i : ItemRef) (tl : list Tier.t) :
  NoDup (map Tier.label tl) -> In o tl ->
  findTier (Tier.label o) (removeFromTier heap o i tl) =
  Some (removeItemFromTier heap o i).
Proof.
  intros Hlab Ho. unfold removeFromTier. rewrite findTier_map.
  - rewrite (findTier_In _ _ Hlab Ho). simpl. now rewrite String.eqb_refl.
  - intro t. destruct (String.eqb (Tier.label t) (Tier.label o)) eqn:E; auto.
    apply String.eqb_eq in E. now rewrite E.
Qed.

(** X1: in a state that satisfies the invariants of the data model, a drop
    on the candidate list while the tier-origin drag selection is an item I
    of tier A takes I out of A, the other items of A keeping their order,
    puts I last in a new candidate Set object, keeps every other tier, the
    pool-origin drag selection and the total number of items, and clears
    the tier-origin drag selection. *)
Theorem drop_tier_item_on_pool (s : State) (A : Tier.t) (I : ItemRef) :
  wf heap s -> In A (tierlist s) -> In I (Tier.items A) ->
  draggedTierItem s = Some I ->
  let s' := step heap s DropOnCandidateList in
  elems (candidatelist s') = elems (candidatelist s) ++ [I] /\
  addr (candidatelist s') <> addr (candidatelist s) /\
  tierItems (Tier.label A) (tierlist s') = JSSet.delete (Tier.items A) I /\
  Forall2 (fun t t' => Tier.label t' = Tier.label t /\
                       (Tier.label t <> Tier.label A -> t' = t))
          (tierlist s) (tierlist s') /\
  totalItems s' = totalItems s /\
  draggedTierItem s' = None /\
  draggedCandidateItem s' = draggedCandidateItem s.
Proof.
  intros Hwf HA HI Ht s'. subst s'.
  pose proof (wf_tiers heap s Hwf) as Hndt.
  pose proof (wf_refs heap s Hwf) as Hnd. unfold all_items in Hnd.
  pose proof (wf_tier_items s A Hwf HA) as HndA.
  pose proof (wf_tier_not_in_pool s A I Hwf HA HI) as Hout.
  pose proof Hwf as [_ Hlab].
  assert (Ho : findOriginTier heap s I = Some A).
  { rewrite findOriginTier_holds. now apply findOrigin_found. }
  rewrite (step_drop_on_pool heap s A I Ht Ho).
  cbn [tierlist candidatelist elems addr draggedTierItem draggedCandidateItem].
  assert (N : NoDup (elems (candidatelist s) ++ [I])).
  { apply NoDup_app; [now apply NoDup_app_remove_r in Hnd | |].
    - constructor; [intros [] | constructor].
    - intros a Ha [<- | []]. contradiction. }
  split; [now apply from_fresh |].
  split; [apply Nat.neq_succ_diag_l |].
  split; [| split; [apply removeFromTier_elsewhere |]].
  - unfold tierItems. rewrite (removeFromTier_found A I _ Hlab HA).
    rewrite removeItemFromTier_items by (now apply NoDup_map_inv in HndA).
    now apply filter_label_delete.
  - split; [| split; reflexivity].
    rewrite !totalItems_length. unfold all_items.
    cbn [tierlist candidatelist elems]. rewrite (from_fresh _ N).
    pose proof (removeFromTier_Permutation heap A I (tierlist s)
                  Hlab HA HI Hndt) as P.
    apply Permutation_length in P. simpl in P.
    rewrite !length_app. simpl. lia.
Qed.

(** X2: in a state that satisfies the invariants of the data model, moving
    an item of the pool to a tier and dragging it back to the pool gives
    the tier list of before, with the item now last in the pool and no
    drag selection left. *)
Theorem pool_tier_pool_round_trip (s : State) (T : Tier.t) (I : ItemRef) :
  wf heap s -> In T (tierlist s) -> In I (elems (candidatelist s)) ->
  draggedCandidateItem s = Some I -> draggedTierItem s = None ->
  let s' := steps heap s [DropOnTier T; DragStartTier I; DropOnCandidateList] in
  tierlist s' = tierlist s /\
  elems (candidatelist s') = JSSet.delete (elems (candidatelist s)) I ++ [I] /\
  draggedCandidateItem s' = None /\ draggedTierItem s' = None.
Proof.
  intros Hwf HT HI Hc Ht s'. subst s'. unfold steps. simpl fold_left.
  pose proof (wf_refs heap s Hwf) as Hnd. unfold all_items in Hnd.
  pose proof (wf_pool_not_in_tier heap s I Hwf HI) as Hout.
  pose proof Hwf as [Hl Hlab].
  assert (HndT : NoDup (Tier.items T)).
  { apply (NoDup_map_inv lbl), (wf_tier_items s T Hwf HT). }
  assert (HlT : forall j, In j (Tier.items T) -> lbl j <> lbl I).
  { intros j Hj E.
    assert (j = I).
    { apply (NoDup_map_eq lbl (all_items s)); auto; unfold all_items;
        apply in_or_app; [right | left]; auto.
      apply in_flat_map. now exists T. }
    subst j. apply Hout, in_flat_map. now exists T. }
  set (T1 := addItemToTier T I).
  set (s1 := step heap s (DropOnTier T)).
  assert (E1 : s1 = {| tierlist := addToTier (Tier.label T) I (tierlist s);
                       candidatelist :=
                         {| addr := addr (candidatelist s);
                            elems := JSSet.delete (elems (candidatelist s)) I |};
                       draggedCandidateItem := None;
                       draggedTierItem := None;
                       dragImages := Nat.pred (dragImages s) |}).
  { apply step_drop_pool_origin; assumption. }
  assert (Inv1 : Inv heap s1).
  { apply Inv_step; [| exact HT]. split; [exact Hwf |]. split.
    - intros i H. rewrite Hc in H. now injection H as <-.
    - intros i H. rewrite Ht in H. discriminate H. }
  assert (HT1 : In T1 (tierlist s1)).
  { rewrite E1. cbn [tierlist]. unfold addToTier.
    apply in_map_iff. exists T. split; [| exact HT].
    now rewrite String.eqb_refl. }
  assert (HI1 : In I (Tier.items T1)).
  { unfold T1. rewrite (addItemToTier_fresh T I HndT).
    - apply in_or_app. right. now left.
    - intro H. now apply (HlT I H). }
  set (s2 := step heap s1 (DragStartTier I)).
  assert (E2 : tierlist s2 = tierlist s1 /\ candidatelist s2 = candidatelist s1 /\
               draggedCandidateItem s2 = None /\ draggedTierItem s2 = Some I).
  { unfold s2. rewrite E1. repeat split. }
  destruct E2 as (E2t & E2c & E2d & E2s).
  assert (Inv2 : Inv heap s2).
  { apply Inv_step; [exact Inv1 |]. exists T1. now split. }
  assert (Ho : findOriginTier heap s2 I = Some T1).
  { rewrite findOriginTier_holds, E2t.
    apply findOrigin_found; auto.
    apply (wf_tiers heap s1), Inv1. }
  rewrite (step_drop_on_pool heap s2 T1 I E2s Ho).
  cbn [tierlist candidatelist elems draggedTierItem draggedCandidateItem].
  rewrite E2t, E2c, E2d, E1. cbn [tierlist candidatelist elems].
  split; [| split; [| split; reflexivity]].
  - unfold removeFromTier, addToTier. rewrite map_map.
    rewrite <- (map_id (tierlist s)) at 2. apply map_ext_in.
    intros t Hin.
    destruct (String.eqb (Tier.label t) (Tier.label T)) eqn:E.
    + apply String.eqb_eq in E.
      assert (t = T) by exact (tier_eq_by_label _ _ _ Hlab Hin HT E).
      subst t. fold T1.
      change (Tier.label T1) with (Tier.label T). rewrite String.eqb_refl.
      unfold T1. now apply remove_added.
    + change (Tier.label T1) with (Tier.label T). now rewrite E.
  - apply from_fresh.
    pose proof (delete_Permutation _ I (NoDup_app_remove_r _ _ Hnd) HI) as P.
    assert (N : NoDup (I :: JSSet.delete (elems (candidatelist s)) I)).
    { eapply Permutation_NoDup; [exact P |].
      now apply NoDup_app_remove_r in Hnd. }
    eapply Permutation_NoDup; [apply Permutation_cons_append | exact N].
Qed.

(** X10: in a state that satisfies the invariant of the reachable states,
    when both drag selections are set and the scan finds the origin of the
    tier item, a drop on a tier loses the pool item: it is deleted from
    the pool and the tier list that holds it is replaced by the one built
    for the tier item, so it is in no tier and the total number of items
    is one less. *)
Theorem drop_with_both_selections_loses_pool_item
  (s : State) (T o : Tier.t) (I J : ItemRef) :
  Inv heap s -> In T (tierlist s) ->
  draggedCandidateItem s = Some I -> draggedTierItem s = Some J ->
  findOriginTier heap s J = Some o ->
  let s' := step heap s (DropOnTier T) in
  ~ In I (all_items s') /\
  In J (tierItems (Tier.label T) (tierlist s')) /\
  S (totalItems s') = totalItems s /\
  draggedCandidateItem s' = None /\ draggedTierItem s' = None.
Proof.
  intros HInv HT Hc Ht Ho s'. subst s'.
  destruct (step_items heap s (DropOnTier T) HInv HT) as [P _].
  unfold lost in P. rewrite Hc, Ht, Ho in P.
  pose proof HInv as [Hwf _].
  pose proof (wf_refs heap s Hwf) as Hnd.
  destruct Hwf as [_ Hlab].
  assert (N : NoDup ([I] ++ all_items (step heap s (DropOnTier T)))).
  { eapply Permutation_NoDup; [symmetry; exact P | exact Hnd]. }
  simpl in N. inversion N as [| ? ? NI _]; subst.
  split; [exact NI |].
  split; [| split].
  - rewrite (step_drop_both_origin heap s T o I J Hc Ht Ho). cbn [tierlist].
    unfold tierItems, addToTier.
    rewrite findTier_map by (intro; apply addToTier_step_label).
    rewrite <- (removeFromTier_labels heap o J) in Hlab.
    assert (HT' : In (Tier.label T)
                     (map Tier.label (removeFromTier heap o J (tierlist s)))).
    { rewrite removeFromTier_labels. now apply in_map. }
    apply in_map_iff in HT'. destruct HT' as [t0 [E0 H0]].
    rewrite <- E0, (findTier_In _ _ Hlab H0). simpl.
    rewrite String.eqb_refl. simpl.
    apply from_In, in_or_app. right. now left.
  - rewrite !totalItems_length. apply Permutation_length in P.
    simpl in P. exact P.
  - now rewrite (step_drop_both_origin heap s T o I J Hc Ht Ho).
Qed.

End Moves.

(** ** Reset, drags without a drop, and what no event changes *)

Section Runs.

Variable heap : ItemRef -> Item.t.

Local Notation "'lbl'" := (label heap).

(** X3: when no item is twice in the state, reset puts the items of the
    tiers behind those of the pool, tier after tier and in their order,
    keeps the total number of items, strips the tiers of their items only,
    and leaves the drag selections and the drag image alone. *)
Theorem reset_keeps_order_and_count (s : State) :
  NoDup (all_items s) ->
  let s' := step heap s ClickReset in
  elems (candidatelist s') =
    elems (candidatelist s) ++ flat_map Tier.items (tierlist s) /\
  tierlist s' = map metadata (tierlist s) /\
  totalItems s' = totalItems s /\
  draggedCandidateItem s' = draggedCandidateItem s /\
  draggedTierItem s' = draggedTierItem s /\
  dragImages s' = dragImages s.
Proof.
  intros Hnd s'. subst s'. rewrite step_reset.
  cbn [tierlist candidatelist elems draggedCandidateItem draggedTierItem
       dragImages].
  rewrite (from_fresh _ Hnd).
  split; [reflexivity |]. split; [reflexivity |].
  split; [| repeat split].
  rewrite !totalItems_length. unfold all_items at 1.
  cbn [tierlist candidatelist elems].
  now rewrite empty_tiers_items, app_nil_r.
Qed.

Lemma reset_no_origin (s : State) (j : ItemRef) :
  findOriginTier heap (step heap s ClickReset) j = None.
Proof.
  rewrite findOriginTier_holds, step_reset. cbn [tierlist].
  apply findOrigin_none. intros t i Ht Hi.
  apply in_map_iff in Ht. destruct Ht as [t0 [<- _]]. destruct Hi.
Qed.

(** X4: reset twice is reset once: the second reset keeps the tier list and
    the elements of the pool, whatever the state was. *)
Theorem reset_twice (s : State) :
  let r := step heap s ClickReset in
  tierlist (step heap r ClickReset) = tierlist r /\
  elems (candidatelist (step heap r ClickReset)) = elems (candidatelist r).
Proof.
  intro r. subst r. rewrite (step_reset heap (step heap s ClickReset)).
  cbn [tierlist candidatelist elems]. rewrite step_reset.
  cbn [tierlist candidatelist elems]. split.
  - rewrite map_map. reflexivity.
  - unfold all_items at 1. cbn [tierlist candidatelist elems].
    rewrite empty_tiers_items, app_nil_r. apply from_fresh, from_NoDup.
Qed.

(** X5: after a reset the tiers are empty, so the scan for an origin finds
    nothing: a drop on the candidate list changes nothing, and a drop on a
    tier changes nothing unless an item of the pool is being dragged, even
    when the tier item that was being dragged is still selected. *)
Theorem drops_after_reset (s : State) :
  let r := step heap s ClickReset in
  step heap r DropOnCandidateList = r /\
  (draggedCandidateItem s = None ->
   forall T, step heap r (DropOnTier T) = r).
Proof.
  intro r. subst r. split.
  - destruct (draggedTierItem (step heap s ClickReset)) as [j |] eqn:Et.
    + apply (step_drop_pool_no_origin heap _ j Et), reset_no_origin.
    + now apply step_drop_pool_no_tier_selection.
  - intros Hc T.
    assert (Hc' : draggedCandidateItem (step heap s ClickReset) = None).
    { now rewrite step_reset. }
    destruct (draggedTierItem (step heap s ClickReset)) as [j |] eqn:Et.
    + apply (step_drop_tier_no_origin heap _ T j Hc' Et), reset_no_origin.
    + now apply step_drop_tier_no_selection.
Qed.

Lemma step_drag (s : State) (e : Event) :
  is_drag e ->
  tierlist (step heap s e) = tierlist s /\
  candidatelist (step heap s e) = candidatelist s.
Proof.
  intro H. destruct e; try destruct H;
    (split; [reflexivity | apply SetObj_eta]).
Qed.

(** X6: a drag without a drop changes no data: after any events that are
    only beginnings and ends of drags the tier list and the candidate Set
    are those of before; and a drag that begins when the selection is empty
    and ends without a drop gives the whole state back. *)
Theorem drag_without_drop (s : State) (evs : list Event) :
  Forall is_drag evs ->
  (tierlist (steps heap s evs) = tierlist s /\
   candidatelist (steps heap s evs) = candidatelist s) /\
  (draggedCandidateItem s = None ->
   forall i, steps heap s [DragStartCandidate i; DragEndCandidate] = s) /\
  (draggedTierItem s = None ->
   forall i, steps heap s [DragStartTier i; DragEndTier] = s).
Proof.
  intro H. split; [| split].
  - revert s. induction H as [| e evs He _ IH]; intro s; [now split |].
    unfold steps in *. simpl. destruct (IH (step heap s e)) as [E1 E2].
    destruct (step_drag s e He) as [F1 F2]. split; congruence.
  - intros Hc i. destruct s as [tl [a el] dc dt n]. simpl in Hc. subst dc.
    reflexivity.
  - intros Ht i. destruct s as [tl [a el] dc dt n]. simpl in Ht. subst dt.
    reflexivity.
Qed.

Lemma addToTier_metadata (l : string) (i : ItemRef) (tl : list Tier.t) :
  map metadata (addToTier l i tl) = map metadata tl.
Proof.
  unfold addToTier. rewrite map_map. apply map_ext. intro t.
  now destruct (String.eqb (Tier.label t) l).
Qed.

Lemma removeFromTier_metadata (o : Tier.t) (i : ItemRef) (tl : list Tier.t) :
  NoDup (map Tier.label tl) -> In o tl ->
  map metadata (removeFromTier heap o i tl) = map metadata tl.
Proof.
  intros Hlab Ho. unfold removeFromTier. rewrite map_map.
  apply map_ext_in. intros t Ht.
  destruct (String.eqb (Tier.label t) (Tier.label o)) eqn:E; [| reflexivity].
  apply String.eqb_eq in E.
  now rewrite (tier_eq_by_label _ _ _ Hlab Ht Ho E).
Qed.

Lemma origin_in_tierlist (s : State) (j : ItemRef) (o : Tier.t) :
  findOriginTier heap s j = Some o -> In o (tierlist s).
Proof.
  rewrite findOriginTier_holds. intro H. now apply findOrigin_some in H.
Qed.

(** One event keeps the labels of the tiers and, when they are unique, the
    order and colours too. *)
Lemma step_tiers (s : State) (e : Event) :
  map Tier.label (tierlist (step heap s e)) = map Tier.label (tierlist s) /\
  (NoDup (map Tier.label (tierlist s)) ->
   map metadata (tierlist (step heap s e)) = map metadata (tierlist s)).
Proof.
  destruct e as [i | | i | | T | |]; try (split; reflexivity).
  - destruct (draggedCandidateItem s) as [I |] eqn:Ec;
      destruct (draggedTierItem s) as [J |] eqn:Et.
    + destruct (findOriginTier heap s J) as [o |] eqn:Eo.
      * rewrite (step_drop_both_origin heap s T o I J Ec Et Eo). cbn [tierlist].
        split; [now rewrite addToTier_labels, removeFromTier_labels |].
        intro Hlab. rewrite addToTier_metadata.
        apply removeFromTier_metadata; auto.
        exact (origin_in_tierlist s J o Eo).
      * rewrite (step_drop_both_no_origin heap s T I J Ec Et Eo).
        cbn [tierlist].
        split; [apply addToTier_labels | intros _; apply addToTier_metadata].
    + rewrite (step_drop_pool_origin heap s T I Ec Et). cbn [tierlist].
      split; [apply addToTier_labels | intros _; apply addToTier_metadata].
    + destruct (findOriginTier heap s J) as [o |] eqn:Eo.
      * rewrite (step_drop_tier_origin heap s T o J Ec Et Eo). cbn [tierlist].
        split; [now rewrite addToTier_labels, removeFromTier_labels |].
        intro Hlab. rewrite addToTier_metadata.
        apply removeFromTier_metadata; auto.
        exact (origin_in_tierlist s J o Eo).
      * rewrite (step_drop_tier_no_origin heap s T J Ec Et Eo). now split.
    + rewrite (step_drop_tier_no_selection heap s T Ec Et). now split.
  - destruct (draggedTierItem s) as [J |] eqn:Et.
    + destruct (findOriginTier heap s J) as [o |] eqn:Eo.
      * rewrite (step_drop_on_pool heap s o J Et Eo). cbn [tierlist].
        split; [apply removeFromTier_labels |].
        intro Hlab. apply removeFromTier_metadata; auto.
        exact (origin_in_tierlist s J o Eo).
      * rewrite (step_drop_pool_no_origin heap s J Et Eo). now split.
    + rewrite (step_drop_pool_no_tier_selection heap s Et). now split.
  - rewrite step_reset. cbn [tierlist]. rewrite !map_map. now split.
Qed.

(** X7: no event creates, deletes or reorders a tier: after any events at
    all the labels of the tiers are those of before, in the same order; and
    when the labels are unique the order field and the colours of every
    tier are those of before as well. *)
Theorem tiers_are_fixed (s : State) (evs : list Event) :
  tierlistKeys (steps heap s evs) = tierlistKeys s /\
  (NoDup (tierlistKeys s) ->
   map metadata (tierlist (steps heap s evs)) = map metadata (tierlist s)).
Proof.
  unfold tierlistKeys, steps. revert s.
  induction evs as [| e evs IH]; intro s; [now split |].
  simpl. destruct (IH (step heap s e)) as [E1 E2].
  destruct (step_tiers s e) as [F1 F2].
  split; [congruence |].
  intro Hlab. rewrite E2; [now apply F2 | now rewrite F1].
Qed.

End Runs.

(** ** What every reachable state of the page satisfies *)

Lemma reachable_tier_labels (heap : ItemRef -> Item.t) (s0 s : State) :
  reachable heap s0 s ->
  map Tier.label (tierlist s) = map Tier.label (tierlist s0).
Proof.
  intro R. induction R as [| s e R IH _]; [reflexivity |].
  now rewrite (proj1 (step_tiers heap s e)).
Qed.

(** X8: in every state reached from the seed state a pool-origin drag
    selection is an item of the pool and a tier-origin drag selection is an
    item of the state (of a tier or, after a reset, of the pool). *)
Theorem selections_are_items (s : State) :
  reachable seed_heap seed s ->
  (forall i, draggedCandidateItem s = Some i ->
             In i (elems (candidatelist s))) /\
  (forall j, draggedTierItem s = Some j -> In j (all_items s)).
Proof.
  intro R. exact (proj2 (reachable_Inv seed_heap seed s seed_Inv R)).
Qed.

Lemma selections_are_items_witness :
  let s := steps seed_heap seed [DragStartTier Vivo; ClickReset] in
  draggedTierItem s = Some Vivo /\ In Vivo (elems (candidatelist s)).
Proof.
  assert (R : reachable seed_heap seed
                (steps seed_heap seed [DragStartTier Vivo; ClickReset])).
  { apply reachable_step; [apply reachable_step; [apply reachable_init |] |].
    - exists tier_S. split; vm_compute; auto.
    - exact Logic.I. }
  split; [reflexivity |].
  pose proof (proj2 (selections_are_items _ R) Vivo eq_refl) as H.
  vm_compute in H. vm_compute. exact H.
Defined.

(** X9: in every state reached from the seed state the React keys of each
    rendered list are defined and pairwise distinct: the labels of the
    items of the candidate list, the labels of the items of each tier, and
    the labels of the tiers, which are S, A, B, C, D, E, F in this order. *)
Theorem rendered_keys_are_unique (s : State) :
  reachable seed_heap seed s ->
  NoDup (candidateKeys seed_heap s) /\
  (forall t, In t (tierlist s) -> NoDup (tierKeys seed_heap t)) /\
  tierlistKeys s = ["S"; "A"; "B"; "C"; "D"; "E"; "F"]%string /\
  (forall i, In i (all_items s) -> label seed_heap i <> None).
Proof.
  intro R. destruct (reachable_Inv seed_heap seed s seed_Inv R) as [Hwf _].
  split; [| split; [| split]].
  - destruct Hwf as [H _]. unfold all_items in H. rewrite map_app in H.
    now apply NoDup_app_remove_r in H.
  - intros t Ht. now apply (wf_tier_items seed_heap s t).
  - unfold tierlistKeys. now rewrite (reachable_tier_labels seed_heap seed s R).
  - intros i Hi. apply (reachable_items seed_heap seed s seed_Inv R) in Hi.
    vm_compute in Hi.
    destruct Hi as [<- | [<- | [<- | [<- | []]]]]; discriminate.
Qed.

Lemma rendered_keys_are_unique_witness :
  let s := steps seed_heap seed
             [DragStartCandidate Item1; DropOnTier tier_S] in
  tierKeys seed_heap (Tier.with_items tier_S [Vivo; Item1]) =
    [Some "Vivo"; Some "Item 1"]%string /\
  NoDup (tierKeys seed_heap (Tier.with_items tier_S [Vivo; Item1])) /\
  NoDup (candidateKeys seed_heap s).
Proof.
  assert (R : reachable seed_heap seed
                (steps seed_heap seed
                   [DragStartCandidate Item1; DropOnTier tier_S])).
  { apply reachable_step; [apply reachable_step; [apply reachable_init |] |];
      vm_compute; auto. }
  destruct (rendered_keys_are_unique _ R) as (H1 & H2 & _).
  split; [reflexivity |]. split; [| exact H1].
  apply H2. vm_compute. auto.
Defined.

(** ** Instances of the moves *)

Lemma findOriginTier_first_match_witness :
  findOriginTier twin_heap twin_tiers Item1_twin =
  Some (Tier.with_items tier_A [Item1]).
Proof.
  apply (findOriginTier_first_match twin_heap twin_tiers Item1_twin).
  exists [tier_S],
         [Tier.with_items tier_B [Item1_twin]; tier_C; tier_D; tier_E; tier_F].
  split; [reflexivity |]. split.
  - exists Item1. split; [vm_compute; auto | reflexivity].
  - intros t j [<- | []] [<- | []]. discriminate.
Defined.

Lemma addItemToTier_by_reference_witness :
  addItemToTier tier_S Vivo = tier_S /\
  Tier.items (addItemToTier (Tier.with_items tier_A [Item1]) Item1_twin) =
    [Item1; Item1_twin].
Proof.
  split.
  - apply (addItemToTier_by_reference tier_S Vivo).
    + vm_compute. nodup_closed.
    + vm_compute. auto.
  - apply (addItemToTier_by_reference
             (Tier.with_items tier_A [Item1]) Item1_twin).
    + vm_compute. nodup_closed.
    + vm_compute. intuition discriminate.
Defined.

Lemma remove_added_item_witness :
  removeItemFromTier seed_heap (addItemToTier tier_S Item1) Item1 = tier_S.
Proof.
  apply (remove_added_item seed_heap tier_S Item1).
  - vm_compute. nodup_closed.
  - intros j [<- | []]. discriminate.
Defined.

Lemma drop_tier_item_on_pool_witness :
  let s := step seed_heap seed (DragStartTier Vivo) in
  let s' := step seed_heap s DropOnCandidateList in
  elems (candidatelist s') = [Item1; Item2; Item3; Vivo] /\
  tierItems "S" (tierlist s') = [] /\
  totalItems s' = 4.
Proof.
  destruct (drop_tier_item_on_pool seed_heap
              (step seed_heap seed (DragStartTier Vivo)) tier_S Vivo)
    as (H1 & _ & H3 & _ & H5 & _).
  - split; vm_compute; nodup_closed.
  - vm_compute. auto.
  - vm_compute. auto.
  - reflexivity.
  - split; [exact H1 |]. split; [exact H3 | exact H5].
Defined.

Lemma pool_tier_pool_round_trip_witness :
  let s := step seed_heap seed (DragStartCandidate Item1) in
  let s' := steps seed_heap s
              [DropOnTier tier_A; DragStartTier Item1; DropOnCandidateList] in
  tierlist s' = tierlist seed /\
  elems (candidatelist s') = [Item2; Item3; Item1].
Proof.
  destruct (pool_tier_pool_round_trip seed_heap
              (step seed_heap seed (DragStartCandidate Item1)) tier_A Item1)
    as (H1 & H2 & _).
  - split; vm_compute; nodup_closed.
  - vm_compute. auto.
  - vm_compute. auto.
  - reflexivity.
  - reflexivity.
  - split; [exact H1 | exact H2].
Defined.

Lemma drop_with_both_selections_loses_pool_item_witness :
  let s := steps seed_heap seed [DragStartCandidate Item1; DragStartTier Vivo] in
  let s' := step seed_heap s (DropOnTier tier_A) in
  ~ In Item1 (all_items s') /\ S (totalItems s') = 4.
Proof.
  assert (R : reachable seed_heap seed
                (steps seed_heap seed
                   [DragStartCandidate Item1; DragStartTier Vivo])).
  { apply reachable_step; [apply reachable_step; [apply reachable_init |] |].
    - vm_compute. auto.
    - exists tier_S. split; vm_compute; auto. }
  destruct (drop_with_both_selections_loses_pool_item seed_heap
              (steps seed_heap seed [DragStartCandidate Item1; DragStartTier Vivo])
              tier_A tier_S Item1 Vivo)
    as (H1 & _ & H3 & _).
  - exact (reachable_Inv seed_heap seed _ seed_Inv R).
  - vm_compute. auto.
  - reflexivity.
  - reflexivity.
  - reflexivity.
  - split; [exact H1 | exact H3].
Defined.

Lemma reset_keeps_order_and_count_witness :
  let s := steps seed_heap seed [DragStartCandidate Item2; DropOnTier tier_B] in
  elems (candidatelist (step seed_heap s ClickReset)) =
    [Item1; Item3; Vivo; Item2] /\
  totalItems (step seed_heap s ClickReset) = 4.
Proof.
  destruct (reset_keeps_order_and_count seed_heap
              (steps seed_heap seed
                 [DragStartCandidate Item2; DropOnTier tier_B]))
    as (H1 & _ & H3 & _).
  - vm_compute. nodup_closed.
  - split; [exact H1 | exact H3].
Defined.

Lemma drops_after_reset_witness :
  let r := steps seed_heap seed [DragStartTier Vivo; ClickReset] in
  draggedTierItem r = Some Vivo /\
  step seed_heap r DropOnCandidateList = r /\
  step seed_heap r (DropOnTier tier_A) = r.
Proof.
  destruct (drops_after_reset seed_heap
              (step seed_heap seed (DragStartTier Vivo))) as [H1 H2].
  split; [reflexivity |]. split; [exact H1 |].
  apply H2. reflexivity.
Defined.

Lemma drag_without_drop_witness :
  let evs := [DragStartCandidate Item1; DragEndCandidate; DragStartTier Vivo] in
  tierlist (steps seed_heap seed evs) = tierlist seed /\
  candidatelist (steps seed_heap seed evs) = candidatelist seed /\
  steps seed_heap seed [DragStartTier Vivo; DragEndTier] = seed.
Proof.
  assert (F : Forall is_drag
                [DragStartCandidate Item1; DragEndCandidate; DragStartTier Vivo]).
  { repeat (apply Forall_cons; [exact Logic.I |]). apply Forall_nil. }
  destruct (drag_without_drop seed_heap seed _ F) as ([H1 H2] & _ & H4).
  split; [exact H1 |]. split; [exact H2 |].
  apply H4. reflexivity.
Defined.

Lemma tiers_are_fixed_witness :
  let evs := [DragStartTier Vivo; DropOnTier tier_F; ClickReset] in
  map metadata (tierlist (steps seed_heap seed evs)) =
  map metadata (tierlist seed).
Proof.
  apply (proj2 (tiers_are_fixed seed_heap seed
                  [DragStartTier Vivo; DropOnTier tier_F; ClickReset])).
  vm_compute. nodup_closed.
Defined.

(** ** More of the drag-enter counter *)

Section CounterRuns.

Import Droppable.

Local Open Scope Z_scope.

(** X14: a drop is a fresh start of the widget: whatever the counter and the
    events before it, the events after a drop are handled as they are from
    counter 0, and the drop itself invokes [onDrop] and nothing else. *)
Theorem drop_is_a_fresh_start (c : Z) (before after : list DomEvent) :
  counter_after c (before ++ Drop :: after) = counter_after 0 after /\
  trace c (before ++ Drop :: after) =
    (trace c before ++ [onDrop] :: trace 0 after)%list.
Proof.
  split.
  - rewrite counter_after_app, (proj1 (run_cons _ _ _)). reflexivity.
  - rewrite trace_app, (proj2 (run_cons _ _ _)). reflexivity.
Qed.

Lemma enters (n : nat) (c : Z) :
  counter_after c (repeat DragEnter n) = c + Z.of_nat n /\
  trace c (repeat DragEnter n) = repeat [] n.
Proof.
  revert c. induction n as [| n IH]; intro c.
  - split; [unfold counter_after; simpl; lia | reflexivity].
  - change (repeat DragEnter (S n)) with (DragEnter :: repeat DragEnter n).
    rewrite (proj1 (run_cons _ _ _)), (proj2 (run_cons _ _ _)).
    change (next_counter c (handle c DragEnter)) with (c + 1).
    destruct (IH (c + 1)) as [E1 E2]. rewrite E1, E2.
    split; [lia | reflexivity].
Qed.

Lemma leaves_inside (n : nat) (c : Z) :
  Z.of_nat n < c ->
  counter_after c (repeat DragLeave n) = c - Z.of_nat n /\
  trace c (repeat DragLeave n) = repeat [] n.
Proof.
  revert c. induction n as [| n IH]; intros c H.
  - split; [unfold counter_after; simpl; lia | reflexivity].
  - change (repeat DragLeave (S n)) with (DragLeave :: repeat DragLeave n).
    rewrite (proj1 (run_cons _ _ _)), (proj2 (run_cons _ _ _)).
    rewrite (proj1 (handle_leave c)), (proj2 (handle_leave c)).
    destruct (IH (c - 1)) as [E1 E2]; [lia |]. rewrite E1, E2.
    replace (c - 1 <=? 0) with false by (symmetry; apply Z.leb_gt; lia).
    split; [lia | reflexivity].
Qed.

Lemma pairs (n : nat) :
  counter_after 0 (concat (repeat [DragEnter; DragLeave] n)) = 0 /\
  trace 0 (concat (repeat [DragEnter; DragLeave] n)) =
    concat (repeat [[]; [onDragLeave]] n).
Proof.
  induction n as [| n [E1 E2]]; [split; reflexivity |].
  change (concat (repeat [DragEnter; DragLeave] (S n)))
    with ([DragEnter; DragLeave] ++ concat (repeat [DragEnter; DragLeave] n))%list.
  rewrite counter_after_app, trace_app.
  change (counter_after 0 [DragEnter; DragLeave]) with 0.
  rewrite E1, E2. split; reflexivity.
Qed.

(** X15: from counter 0, entering n + 1 nested elements and leaving them
    all invokes the leave callback once, at the last leave, and brings the
    counter back to 0; entering and leaving one element n times invokes it
    n times, at every leave. *)
Theorem nested_and_repeated_visits (n : nat) :
  (trace 0 (repeat DragEnter (S n) ++ repeat DragLeave (S n)) =
     (repeat [] (S n) ++ repeat [] n ++ [[onDragLeave]])%list /\
   counter_after 0 (repeat DragEnter (S n) ++ repeat DragLeave (S n)) = 0) /\
  (trace 0 (concat (repeat [DragEnter; DragLeave] n)) =
     concat (repeat [[]; [onDragLeave]] n) /\
   counter_after 0 (concat (repeat [DragEnter; DragLeave] n)) = 0).
Proof.
  split; [| destruct (pairs n); now split].
  destruct (enters (S n) 0) as [E1 E2].
  assert (L : repeat DragLeave (S n) = (repeat DragLeave n ++ [DragLeave])%list).
  { exact (repeat_cons n DragLeave). }
  destruct (leaves_inside n (0 + Z.of_nat (S n))) as [F1 F2]; [lia |].
  rewrite counter_after_app, trace_app, E1, E2, L.
  rewrite counter_after_app, trace_app, F1, F2.
  replace (0 + Z.of_nat (S n) - Z.of_nat n) with 1 by lia.
  split; reflexivity.
Qed.

Lemma calls_not_over (c : Z) (e : DomEvent) :
  filter not_onDragOver (calls (handle c e)) =
  if not_over e then calls (handle c e) else [].
Proof.
  destruct e; try reflexivity.
  rewrite (proj2 (handle_leave c)). now destruct (c - 1 <=? 0).
Qed.

(** X16: hover ticks do not disturb the widget: the [DragOver] events leave
    the counter as it is and invoke [onDragOver] only, so the counter and
    the other callbacks are those of the run without the [DragOver]
    events. *)
Theorem hover_ticks_are_transparent (c : Z) (evs : list DomEvent) :
  counter_after c (filter not_over evs) = counter_after c evs /\
  concat (trace c (filter not_over evs)) =
    filter not_onDragOver (concat (trace c evs)).
Proof.
  revert c. induction evs as [| e evs IH]; intro c; [split; reflexivity |].
  rewrite (proj1 (run_cons c e evs)), (proj2 (run_cons c e evs)).
  simpl concat. rewrite filter_app, calls_not_over.
  destruct (IH (next_counter c (handle c e))) as [E1 E2].
  simpl filter. destruct (not_over e) eqn:N.
  - rewrite (proj1 (run_cons _ _ _)), (proj2 (run_cons _ _ _)).
    simpl concat. now rewrite E1, E2.
  - destruct e; try discriminate N.
    change (next_counter c (handle c DragOver)) with c in *.
    now rewrite E1, E2.
Qed.

Lemma well_nested_counter (c : Z) (evs : list DomEvent) (k : nat) :
  0 <= c -> well_nested c evs -> 0 <= counter_before c evs k.
Proof.
  unfold counter_before. revert c k.
  induction evs as [| e evs IH]; intros c k Hc H.
  - now rewrite firstn_nil.
  - destruct k as [| k]; [exact Hc |].
    rewrite firstn_cons, (proj1 (run_cons _ _ _)).
    destruct e; simpl in H; try contradiction.
    + apply IH; [| exact H].
      change (next_counter c (handle c DragEnter)) with (c + 1). lia.
    + rewrite (proj1 (handle_leave c)). apply IH; [lia | apply H].
Qed.

(** X17: when the events are enters and leaves that never leave more often
    than they entered, from counter 0, the counter is never negative and a
    leave invokes the leave callback exactly when it brings the counter
    back to 0: once for every time the pointer has left the widget. *)
Theorem leave_callback_once_per_exit (evs : list DomEvent) :
  well_nested 0 evs ->
  (forall k, 0 <= counter_before 0 evs k) /\
  (forall k, nth_error evs k = Some DragLeave ->
     calls_at 0 evs k =
       if counter_before 0 evs (S k) =? 0 then [onDragLeave] else []) /\
  (forall k, nth_error evs k = Some DragEnter -> calls_at 0 evs k = []).
Proof.
  intro H.
  assert (N : forall k, 0 <= counter_before 0 evs k).
  { intro k. apply well_nested_counter; [lia | exact H]. }
  split; [exact N |]. split.
  - intros k Hk. destruct (event_at 0 evs k _ Hk) as [E1 E2].
    rewrite (proj1 (handle_leave _)) in E2.
    rewrite (proj2 (handle_leave _)) in E1. rewrite E1, E2.
    pose proof (N (S k)) as P. rewrite E2 in P.
    destruct (counter_before 0 evs k - 1 =? 0) eqn:Z0.
    + apply Z.eqb_eq in Z0. now rewrite Z0.
    + apply Z.eqb_neq in Z0.
      replace (counter_before 0 evs k - 1 <=? 0) with false; auto.
      symmetry. apply Z.leb_gt. lia.
  - intros k Hk. now destruct (event_at 0 evs k _ Hk) as [E1 _].
Qed.

Lemma leave_callback_once_per_exit_witness :
  let evs := [DragEnter; DragEnter; DragLeave; DragEnter; DragLeave; DragLeave] in
  calls_at 0 evs 2 = [] /\ calls_at 0 evs 4 = [] /\
  calls_at 0 evs 5 = [onDragLeave].
Proof.
  assert (W : well_nested 0
                [DragEnter; DragEnter; DragLeave; DragEnter; DragLeave; DragLeave]).
  { simpl. repeat split; lia. }
  destruct (leave_callback_once_per_exit _ W) as (_ & L & _).
  split; [exact (L 2%nat eq_refl) |].
  split; [exact (L 4%nat eq_refl) | exact (L 5%nat eq_refl)].
Defined.

End CounterRuns.

(** ** The earlier page *)

Section Earlier.

Variable heap : ItemRef -> Item.t.

Lemma later_step (s : V1.State) (e : V1.Event) :
  later_state (V1.step s e) = step heap (later_state s) (later_event e).
Proof.
  destruct e as [i | | T]; try reflexivity.
  unfold V1.step, V1.handler, V1.addItemToTierlist, step, handler,
    handleDropOnTierList, later_state, start, V1.start.
  cbn [draggedCandidateItem draggedTierItem].
  destruct (V1.draggedItem s); reflexivity.
Qed.

(** X18: the later page extends the earlier one: on the events of the
    earlier page (begin and end of a drag from the candidate list, drop on
    a tier) its handlers compute the state that the handlers of the earlier
    page compute, the one selection of the earlier page being the
    pool-origin selection and no tier item being dragged. *)
Theorem later_page_extends_earlier (s : V1.State) (e : V1.Event) :
  later_state (V1.step s e) = step heap (later_state s) (later_event e) /\
  (V1.enabled s e <-> enabled (later_state s) (later_event e)) /\
  single_origin (later_state s) (later_event e).
Proof.
  split; [| split].
  - apply later_step.
  - destruct e; reflexivity.
  - destruct e; simpl; auto.
Qed.

Lemma later_reachable (s0 s : V1.State) :
  V1.reachable s0 s ->
  reachable_single_origin heap (later_state s0) (later_state s).
Proof.
  intro R. induction R as [| s e R IH He]; [apply single_origin_init |].
  rewrite later_step. apply single_origin_step; auto.
  - destruct e; exact He.
  - destruct e; simpl; auto.
Qed.

Lemma tierItems_addToTier (l target : string) (i : ItemRef)
  (tl : list Tier.t) :
  incl (tierItems l tl) (tierItems l (addToTier target i tl)).
Proof.
  unfold tierItems, addToTier.
  rewrite findTier_map by (intro; apply addToTier_step_label).
  destruct (findTier l tl) as [t |]; [| apply incl_refl].
  simpl. destruct (String.eqb (Tier.label t) target); [| apply incl_refl].
  intros x Hx. simpl. apply from_In, in_or_app. now left.
Qed.

Lemma earlier_step_grows (s : V1.State) (e : V1.Event) :
  incl (elems (V1.candidatelist (V1.step s e))) (elems (V1.candidatelist s)) /\
  (forall l, incl (tierItems l (V1.tierlist s))
                  (tierItems l (V1.tierlist (V1.step s e)))) /\
  addr (V1.candidatelist (V1.step s e)) = addr (V1.candidatelist s).
Proof.
  destruct e as [i | | T];
    try (split; [apply incl_refl | split; [intro; apply incl_refl | reflexivity]]).
  unfold V1.step, V1.handler, V1.addItemToTierlist.
  destruct (V1.draggedItem s) as [i |];
    [| split; [apply incl_refl | split; [intro; apply incl_refl | reflexivity]]].
  split; [| split; [| reflexivity]].
  - intros x Hx. cbn in Hx. now apply delete_In in Hx.
  - intro l. exact (tierItems_addToTier l (Tier.label T) i (V1.tierlist s)).
Qed.

(** X20: in the earlier page an item never comes back: after any events
    the items of the pool are among those it had, every tier holds at
    least the items it had, and the candidate Set is the same object. *)
Theorem earlier_page_only_moves_to_tiers (s0 s : V1.State) :
  V1.reachable s0 s ->
  incl (elems (V1.candidatelist s)) (elems (V1.candidatelist s0)) /\
  (forall l, incl (tierItems l (V1.tierlist s0))
                  (tierItems l (V1.tierlist s))) /\
  addr (V1.candidatelist s) = addr (V1.candidatelist s0).
Proof.
  intro R. induction R as [| s e R (I1 & I2 & I3) He].
  - split; [apply incl_refl | split; [intro; apply incl_refl | reflexivity]].
  - destruct (earlier_step_grows s e) as (S1 & S2 & S3).
    split; [| split].
    + eapply incl_tran; eassumption.
    + intro l. eapply incl_tran; [apply I2 | apply S2].
    + congruence.
Qed.

End Earlier.

(** X19: in the earlier page no events at all lose or duplicate an item:
    in every state reached from its seed state the items of the pool and of
    the tiers are the four items of the seed state, each once, and no two
    of them share a label. *)
Theorem earlier_page_keeps_items (s : V1.State) :
  V1.reachable V1.seed s ->
  Permutation (elems (V1.candidatelist s) ++
               flat_map Tier.items (V1.tierlist s))
              [Item1; Item2; Item3; Vivo] /\
  NoDup (map (label seed_heap)
             (elems (V1.candidatelist s) ++
              flat_map Tier.items (V1.tierlist s))).
Proof.
  intro R. apply (later_reachable seed_heap) in R.
  change (later_state V1.seed) with seed in R.
  split.
  - exact (single_origin_keeps_items seed_heap seed _ seed_Inv R).
  - apply single_origin_reachable in R.
    exact (proj1 (proj1 (reachable_Inv seed_heap seed _ seed_Inv R))).
Qed.

Lemma earlier_page_keeps_items_witness :
  let s := V1.step (V1.step V1.seed (V1.DragStart Item1))
                   (V1.DropOnTier tier_A) in
  tierItems "A" (V1.tierlist s) = [Item1] /\
  Permutation (elems (V1.candidatelist s) ++
               flat_map Tier.items (V1.tierlist s))
              [Item1; Item2; Item3; Vivo].
Proof.
  assert (R : V1.reachable V1.seed
                (V1.step (V1.step V1.seed (V1.DragStart Item1))
                         (V1.DropOnTier tier_A))).
  { apply V1.reachable_step; [apply V1.reachable_step |].
    - apply V1.reachable_init.
    - vm_compute. auto.
    - vm_compute. auto. }
  split; [reflexivity |].
  exact (proj1 (earlier_page_keeps_items _ R)).
Defined.

Lemma earlier_page_only_moves_to_tiers_witness :
  let s := V1.step (V1.step V1.seed (V1.DragStart Item1))
                   (V1.DropOnTier tier_S) in
  incl (elems (V1.candidatelist s)) [Item1; Item2; Item3] /\
  incl [Vivo] (tierItems "S" (V1.tierlist s)).
Proof.
  assert (R : V1.reachable V1.seed
                (V1.step (V1.step V1.seed (V1.DragStart Item1))
                         (V1.DropOnTier tier_S))).
  { apply V1.reachable_step; [apply V1.reachable_step |].
    - apply V1.reachable_init.
    - vm_compute. auto.
    - vm_compute. auto. }
  destruct (earlier_page_only_moves_to_tiers V1.seed _ R) as (H1 & H2 & _).
  split; [exact H1 | exact (H2 "S"%string)].
Defined.

(** ** The drag image and the selections over a whole gesture *)

Section Gestures.

Variable heap : ItemRef -> Item.t.

(** A drop never sets a drag selection and never adds a drag image. *)
Ltac done_release :=
  repeat split; intros; auto; try discriminate; try congruence; try lia.

Lemma drop_releases (s : State) (d : Event) :
  (exists T, d = DropOnTier T) \/ d = DropOnCandidateList ->
  (draggedCandidateItem s = None ->
   draggedCandidateItem (step heap s d) = None) /\
  (draggedTierItem s = None -> draggedTierItem (step heap s d) = None) /\
  dragImages (step heap s d) <= dragImages s.
Proof.
  intros [[T ->] | ->].
  - destruct (draggedCandidateItem s) as [I |] eqn:Ec;
      destruct (draggedTierItem s) as [J |] eqn:Et.
    + destruct (findOriginTier heap s J) as [o |] eqn:Eo.
      * rewrite (step_drop_both_origin heap s T o I J Ec Et Eo). simpl. done_release.
      * rewrite (step_drop_both_no_origin heap s T I J Ec Et Eo). simpl. done_release.
    + rewrite (step_drop_pool_origin heap s T I Ec Et). simpl.
      done_release.
    + destruct (findOriginTier heap s J) as [o |] eqn:Eo.
      * rewrite (step_drop_tier_origin heap s T o J Ec Et Eo). simpl. done_release.
      * rewrite (step_drop_tier_no_origin heap s T J Ec Et Eo).
        done_release.
    + rewrite (step_drop_tier_no_selection heap s T Ec Et). done_release.
  - destruct (draggedTierItem s) as [J |] eqn:Et.
    + destruct (findOriginTier heap s J) as [o |] eqn:Eo.
      * rewrite (step_drop_on_pool heap s o J Et Eo). simpl. done_release.
      * rewrite (step_drop_pool_no_origin heap s J Et Eo).
        done_release.
    + rewrite (step_drop_pool_no_tier_selection heap s Et). done_release.
Qed.

(** X21: every whole gesture releases what it took: from a state with no
    drag image and no drag selection, a drag from the pool or from a tier
    followed by a drop on any tier or on the candidate list and by the end
    of the drag leaves no drag image and no drag selection, whether the
    drop moved the item or not. *)
Theorem gesture_releases_image_and_selection
  (s : State) (i : ItemRef) (d : Event) :
  dragImages s = 0 ->
  draggedCandidateItem s = None -> draggedTierItem s = None ->
  (exists T, d = DropOnTier T) \/ d = DropOnCandidateList ->
  (let s' := steps heap s [DragStartCandidate i; d; DragEndCandidate] in
   dragImages s' = 0 /\
   draggedCandidateItem s' = None /\ draggedTierItem s' = None) /\
  (let s' := steps heap s [DragStartTier i; d; DragEndTier] in
   dragImages s' = 0 /\
   draggedCandidateItem s' = None /\ draggedTierItem s' = None).
Proof.
  intros Hn Hc Ht Hd. unfold steps. simpl fold_left. split.
  - destruct (drop_releases (step heap s (DragStartCandidate i)) d Hd)
      as (_ & D2 & D3).
    assert (E : dragImages (step heap s (DragStartCandidate i)) = 1)
      by (simpl; now rewrite Hn).
    rewrite E in D3. specialize (D2 Ht).
    set (s2 := step heap (step heap s (DragStartCandidate i)) d) in *.
    split; [| split; [reflexivity | exact D2]].
    change (Nat.pred (dragImages s2) = 0).
    destruct (dragImages s2) as [| [| n]]; simpl; lia.
  - destruct (drop_releases (step heap s (DragStartTier i)) d Hd)
      as (D1 & _ & D3).
    assert (E : dragImages (step heap s (DragStartTier i)) = 1)
      by (simpl; now rewrite Hn).
    rewrite E in D3. specialize (D1 Hc).
    set (s2 := step heap (step heap s (DragStartTier i)) d) in *.
    split; [| split; [exact D1 | reflexivity]].
    change (Nat.pred (dragImages s2) = 0).
    destruct (dragImages s2) as [| [| n]]; simpl; lia.
Qed.

End Gestures.

Lemma gesture_releases_image_and_selection_witness :
  let s' := steps seed_heap seed
              [DragStartTier Vivo; DropOnTier tier_B; DragEndTier] in
  dragImages s' = 0 /\
  draggedCandidateItem s' = None /\ draggedTierItem s' = None.
Proof.
  apply (proj2 (gesture_releases_image_and_selection seed_heap seed Vivo
                  (DropOnTier tier_B) eq_refl eq_refl eq_refl
                  (or_introl (ex_intro _ tier_B eq_refl)))).
Defined.
